(** * cmf-affectiveExpression: the merge-and-reorder pipeline

    A shallow embedding of [merge_affectiveExpression.py] (header cleaning,
    sentence collection, the OpenAI merge call and its backoff wrapper) and of
    [merge_rearrange.py] (sample-code normalisation, column selection and the
    reordering of a merged table along a canonical list), followed by the
    properties of these functions.

    Python [str] values are sequences of Unicode code points; they are
    modelled as lists of [N].  Whitespace is the interpreter's
    [Py_UNICODE_ISSPACE], which both [str.strip()] and the pattern class
    [\s] use.  Case conversion and the pattern class [\d] depend on the
    interpreter's Unicode tables, which are not part of the repository: they
    are fields of the [Runtime] class, constrained on the ASCII block; what
    the conversions of CPython do beyond it is stated by [CaseLaws]. *)

From Stdlib Require Import NArith Ascii String.
From stdpp Require Import base list gmap.
From Equations Require Import Equations.

(** ** Python strings *)

Abbreviation pystr := (list N).

(** A string literal of the ASCII block as a Python string. *)
Fixpoint py (s : string) : pystr :=
  match s with
  | EmptyString => []
  | String a s' => N_of_ascii a :: py s'
  end.

Definition in_range (lo hi c : N) : bool := ((lo <=? c) && (c <=? hi))%N.

(** [Py_UNICODE_ISSPACE]: the code points that [str.strip()] removes and
    that [\s] matches in a [str] pattern. *)
Definition is_space (c : N) : bool :=
  in_range 9 13 c || in_range 28 32 c || (c =? 133)%N || (c =? 160)%N
  || (c =? 5760)%N || in_range 8192 8202 c || (c =? 8232)%N || (c =? 8233)%N
  || (c =? 8239)%N || (c =? 8287)%N || (c =? 12288)%N.

Definition is_ascii (c : N) : bool := (c <? 128)%N.

Definition SPACE : N := 32%N.
Definition SLASH : N := 47%N.
Definition DOT : N := 46%N.
Definition NEWLINE : N := 10%N.

(** [s.lstrip(chars)] and [s.rstrip(chars)], the character set given as a
    predicate. *)
Fixpoint lstrip_chars (p : N → bool) (s : pystr) : pystr :=
  match s with
  | [] => []
  | c :: s' => if p c then lstrip_chars p s' else s
  end.

Fixpoint rstrip_chars (p : N → bool) (s : pystr) : pystr :=
  match s with
  | [] => []
  | c :: s' =>
      match rstrip_chars p s' with
      | [] => if p c then [] else [c]
      | r => c :: r
      end
  end.

(** [s.strip()] *)
Definition strip (s : pystr) : pystr :=
  rstrip_chars is_space (lstrip_chars is_space s).

(** [sep.join(parts)] *)
Fixpoint join (sep : pystr) (parts : list pystr) : pystr :=
  match parts with
  | [] => []
  | [p] => p
  | p :: ps => p ++ sep ++ join sep ps
  end.

(** ** The interpreter's Unicode tables *)

Definition ascii_lower (c : N) : N := if in_range 65 90 c then (c + 32)%N else c.
Definition ascii_upper (c : N) : N := if in_range 97 122 c then (c - 32)%N else c.
Definition ascii_digit (c : N) : bool := in_range 48 57 c.

(** [str.lower], [str.upper] and the class [\d] of [str] patterns.  On
    ASCII strings the interpreter converts character by character within
    the ASCII letters, and the only ASCII decimal digits are 0-9. *)
Class Runtime := {
  str_lower : pystr → pystr;
  str_upper : pystr → pystr;
  is_decimal : N → bool;
  str_lower_ascii : ∀ s, forallb is_ascii s = true → str_lower s = map ascii_lower s;
  str_upper_ascii : ∀ s, forallb is_ascii s = true → str_upper s = map ascii_upper s;
  is_decimal_ascii : ∀ c, is_ascii c = true → is_decimal c = ascii_digit c
}.

(** The tables cut down to the ASCII block: every other code point is
    caseless and no digit.  It is the interpreter's behaviour on strings of
    ASCII characters and serves to evaluate the functions on such inputs. *)
Definition ascii_runtime : Runtime := {|
  str_lower := map ascii_lower;
  str_upper := map ascii_upper;
  is_decimal := ascii_digit;
  str_lower_ascii := λ _ _, eq_refl;
  str_upper_ascii := λ _ _, eq_refl;
  is_decimal_ascii := λ _ _, eq_refl
|}.

(** A runtime that knows one letter beyond the ASCII block: U+00DF, the
    sharp s, which [str.upper] turns into the two letters SS and
    [str.lower] leaves alone. *)
Definition upper_sharp_s (c : N) : pystr :=
  if (c =? 223)%N then [83; 83]%N else [ascii_upper c].

Definition sharp_s_runtime : Runtime.
Proof.
  refine {| str_lower := map ascii_lower;
            str_upper := flat_map upper_sharp_s;
            is_decimal := ascii_digit |}; [done| |done].
  intros s. induction s as [|c s IH]; simpl; [done|].
  intros [Hc Hs]%andb_true_iff. rewrite IH by done.
  unfold upper_sharp_s. destruct (N.eqb_spec c 223) as [->|_]; done.
Defined.

(** *** The case conversions beyond the ASCII block

    [str.lower] and [str.upper] leave every whitespace character and the
    separator "/" where they are, and turn any other character into one or
    more characters that are neither.  [same_layout s s'] says that [s'] is
    [s] with such replacements. *)
Definition layout_char (c : N) : bool := is_space c || (c =? SLASH)%N.

Inductive same_layout : pystr → pystr → Prop :=
  | same_layout_nil : same_layout [] []
  | same_layout_keep c s s' :
      layout_char c = true →
      same_layout s s' → same_layout (c :: s) (c :: s')
  | same_layout_subst c p s s' :
      layout_char c = false →
      p ≠ [] → forallb (λ x, negb (layout_char x)) p = true →
      same_layout s s' → same_layout (c :: s) (p ++ s').

(** The Hangul syllables, U+AC00 to U+D7A3: the script of the sample codes
    that are not written in ASCII.  They have no case. *)
Definition is_hangul (c : N) : bool := in_range 44032 55203 c.

(** What the conversions of CPython 3 do on every string: lowercasing twice
    is lowercasing once; both conversions keep the layout; [str.upper]
    converts character by character ([str.lower] does not: the capital
    sigma is lowercased according to its position in the word); a string of
    ASCII characters and Hangul syllables is converted within the ASCII
    letters. *)
Class CaseLaws (R : Runtime) : Prop := {
  lower_idempotent : ∀ s, str_lower (str_lower s) = str_lower s;
  lower_layout : ∀ s, same_layout s (str_lower s);
  upper_charwise : ∀ s1 s2, str_upper (s1 ++ s2) = str_upper s1 ++ str_upper s2;
  upper_layout : ∀ s, same_layout s (str_upper s);
  hangul_caseless : ∀ s,
    forallb (λ c, is_ascii c || is_hangul c) s = true →
    str_lower s = map ascii_lower s ∧ str_upper s = map ascii_upper s
}.

(** ** Regular expressions used by the sources

    A backtracking matcher in continuation style: a pattern consumes a prefix
    of the subject and hands the rest to its continuation; the greedy
    quantifiers try the longest repetition first and give characters back
    when the continuation fails. *)

Fixpoint re_star (p : N → bool) (s : pystr) (k : pystr → option pystr)
  : option pystr :=
  match s with
  | c :: s' =>
      if p c then
        match re_star p s' k with
        | Some r => Some r
        | None => k s
        end
      else k s
  | [] => k s
  end.

Definition re_plus (p : N → bool) (s : pystr) (k : pystr → option pystr)
  : option pystr :=
  match s with
  | c :: s' => if p c then re_star p s' k else None
  | [] => None
  end.

Definition re_lit (c0 : N) (s : pystr) (k : pystr → option pystr)
  : option pystr :=
  match s with
  | c :: s' => if (c =? c0)%N then k s' else None
  | [] => None
  end.

(** [_MULTISPACE_RE.sub(" ", s)] with [_MULTISPACE_RE = re.compile(r"\s+")]:
    scanning from the left, every maximal run of whitespace is one match and
    is replaced by a single space.  [in_run] tells that the previous
    character belonged to the match being replaced. *)
Fixpoint multispace_sub_from (in_run : bool) (s : pystr) : pystr :=
  match s with
  | [] => []
  | c :: s' =>
      if is_space c then
        if in_run then multispace_sub_from true s'
        else SPACE :: multispace_sub_from true s'
      else c :: multispace_sub_from false s'
  end.

Definition multispace_sub (s : pystr) : pystr := multispace_sub_from false s.

(** ** Exceptions, results and effects *)

Inductive exn :=
  | EnvironmentError
  | ImportError
  | RuntimeError (cause : pystr)
  | ValueError
  | KeyError (label : pystr)
  | SdkError (message : pystr).

Inductive result (A : Type) :=
  | Ok (a : A)
  | Raise (e : exn).
Arguments Ok {A} a.
Arguments Raise {A} e.

(** A computation that reads and updates a world [W] and returns a value or
    raises. *)
Definition M (W A : Type) : Type := W → result A * W.

Definition ret {W A} (a : A) : M W A := λ w, (Ok a, w).
Definition raise {W A} (e : exn) : M W A := λ w, (Raise e, w).
Definition bind {W A B} (m : M W A) (k : A → M W B) : M W B :=
  λ w, match m w with
       | (Ok a, w') => k a w'
       | (Raise e, w') => (Raise e, w')
       end.
(** [try: m except Exception as e: handler(e)] *)
Definition try_except {W A} (m : M W A) (handler : exn → M W A) : M W A :=
  λ w, match m w with
       | (Ok a, w') => (Ok a, w')
       | (Raise e, w') => handler e w'
       end.

Notation "'let*' x ':=' m 'in' k" := (bind m (λ x, k))
  (at level 10, x name, m at level 100, k at level 200).

(** *** The OpenAI service

    The SDK objects the merge call touches.  A chat completion is the list
    of its choices, each with the [content] of its message ([None] when the
    SDK gives [None]).  A response carries [output_text] if the attribute
    exists, and the [output] and [outputs] lists, empty when the attribute
    is missing; an output item is the list of the [text] of its content
    parts. *)
Record response := {
  output_text : option (option pystr);
  output : list (list (option pystr));
  outputs : list (list (option pystr))
}.

Inductive request :=
  | ChatCompletionsCreate (model user_content : pystr)
  | ResponsesCreate (model input : pystr).

Inductive sdk_result (A : Type) :=
  | Returned (a : A)
  | Failed (message : pystr).
Arguments Returned {A} a.
Arguments Failed {A} message.

(** The process environment and the remote service.  The service answers a
    request knowing the requests made before it; [openai_installed] tells
    whether [from openai import OpenAI] succeeds. *)
Record Env := {
  OPENAI_API_KEY : option pystr;
  openai_installed : bool;
  chat_completions : list request → pystr → pystr → sdk_result (list (option pystr));
  responses : list request → pystr → pystr → sdk_result response
}.

(** The world of the merge call: the requests sent so far, oldest first. *)
Definition chat_completions_create (env : Env) (model user_content : pystr)
  : M (list request) (list (option pystr)) :=
  λ sent,
    let sent' := sent ++ [ChatCompletionsCreate model user_content] in
    match chat_completions env sent model user_content with
    | Returned chat => (Ok chat, sent')
    | Failed message => (Raise (SdkError message), sent')
    end.

Definition responses_create (env : Env) (model input : pystr)
  : M (list request) response :=
  λ sent,
    let sent' := sent ++ [ResponsesCreate model input] in
    match responses env sent model input with
    | Returned resp => (Ok resp, sent')
    | Failed message => (Raise (SdkError message), sent')
    end.

(** [str(e)] for the exceptions the SDK raises. *)
Definition exn_text (e : exn) : pystr :=
  match e with
  | SdkError message => message
  | RuntimeError cause => cause
  | KeyError label => label
  | _ => []
  end.

(** [x or ""] for an optional string. *)
Definition or_empty (x : option pystr) : pystr := default [] x.

(** [prompt_header], code point by code point. *)
Definition prompt_header : pystr :=
  [50500; 47000; 32; 47928; 51109; 46308; 51008; 32; 49548; 51116; 50640; 32;
   45824; 54620; 32; 44048; 49457; 50616; 50612; 46308; 51012; 32; 54364;
   54788; 54620; 44144; 50556; 46; 32; 51204; 48512; 32; 54633; 52432; 49436;
   32; 47928; 45800; 51004; 47196; 32; 47564; 46308; 50612; 32; 51452; 44256;
   44; 32; 47928; 51109; 32; 45149; 47610; 51020; 51012; 32; 126; 51020; 46;
   32; 52404; 47196; 32; 54644; 51480; 46; 32; 52636; 47141; 51008; 32; 54616;
   45208; 51032; 32; 47928; 45800; 47564; 32; 51228; 44277; 54644; 51480;
   46]%N.

(** The text between the header and the bullets of [user_content]. *)
Definition list_heading : pystr :=
  [10; 10; 47928; 51109; 32; 47785; 47197; 58; 10]%N.

(** [call_openai_merge].  The system message and the temperature of the
    chat request are constants of the source and are not part of the
    request record. *)
Definition call_openai_merge (env : Env) (sentences : list pystr)
    (model : pystr) : M (list request) pystr :=
  match sentences with
  | [] => ret []
  | _ =>
      let bullet_list :=
        join [NEWLINE] (map (λ s, py "- " ++ s) sentences) in
      let user_content := prompt_header ++ list_heading ++ bullet_list in
      match OPENAI_API_KEY env with
      | None | Some [] => raise EnvironmentError
      | Some (_ :: _) =>
          if openai_installed env then
            try_except
              (let* chat := chat_completions_create env model user_content in
               let content :=
                 match chat with
                 | choice :: _ => choice
                 | [] => Some []
                 end in
               ret (strip (or_empty content)))
              (λ _,
                 try_except
                   (let* resp := responses_create env model user_content in
                    match output_text resp with
                    | Some text => ret (strip (or_empty text))
                    | None =>
                        let outs :=
                          match output resp with
                          | [] => outputs resp
                          | o => o
                          end in
                        match outs with
                        | (text :: _) :: _ => ret (strip (or_empty text))
                        | _ => ret []
                        end
                    end)
                   (λ e, raise (RuntimeError (exn_text e))))
          else raise ImportError
      end
  end.

(** *** The retry controller *)

(** What [backoff_call] does besides calling: each invocation of the
    wrapped call, each retry message and each [time.sleep]. *)
Inductive ctl_event :=
  | Invoked
  | Printed (attempt_no retries sleep_s : nat) (e : exn)
  | Slept (seconds : nat).

(** The loop [for attempt in range(retries)] of [backoff_call] around an
    arbitrary call, from iteration [attempt] with [todo] iterations left.
    When the range is exhausted the function returns the empty string. *)
Fixpoint backoff_from {W} (call : M W pystr) (retries todo attempt : nat)
  : M (W * list ctl_event) pystr :=
  λ '(w, log),
    match todo with
    | 0 => (Ok [], (w, log))
    | S todo' =>
        match call w with
        | (Ok v, w') => (Ok v, (w', log ++ [Invoked]))
        | (Raise e, w') =>
            if attempt =? retries - 1 then
              (Raise e, (w', log ++ [Invoked]))
            else
              let sleep_s := 2 ^ attempt in
              backoff_from call retries todo' (S attempt)
                (w', log ++ [Invoked;
                             Printed (attempt + 1) retries sleep_s e;
                             Slept sleep_s])
        end
    end.

Definition backoff_loop {W} (call : M W pystr) (retries : nat)
  : M (W * list ctl_event) pystr :=
  backoff_from call retries retries 0.

(** [backoff_call(sentences, model, retries)] *)
Definition backoff_call (env : Env) (sentences : list pystr) (model : pystr)
    (retries : nat) : M (list request * list ctl_event) pystr :=
  backoff_loop (call_openai_merge env sentences model) retries.

Definition DEFAULT_RETRIES : nat := 5.

Definition is_invoked (ev : ctl_event) : bool :=
  match ev with Invoked => true | _ => false end.

Definition invocations (log : list ctl_event) : nat :=
  length (List.filter is_invoked log).

Definition sleeps (log : list ctl_event) : list nat :=
  omap (λ ev, match ev with Slept n => Some n | _ => None end) log.

(** A table read by [read_csv_smart] with [dtype=str]: its columns in
    order, each with its label and its cells in row order.  [read_csv]
    makes the labels distinct. *)
Abbreviation DataFrame := (list (pystr * list pystr)).

Section Sources.
Context {R : Runtime}.

(** ** merge_affectiveExpression.py *)

(** [_HEADER_PREFIX_RE = re.compile(r"^\s*\d+\.\s*")] matched at the start
    of the subject: the rest of the subject after the match, if any. *)
Definition header_prefix_match (s : pystr) : option pystr :=
  re_star is_space s (λ s1,
    re_plus is_decimal s1 (λ s2,
      re_lit DOT s2 (λ s3,
        re_star is_space s3 Some))).

(** [_HEADER_PREFIX_RE.sub("", header)]: the pattern is anchored and its
    matches are not empty, so at most the match at position 0 is removed. *)
Definition header_prefix_sub (s : pystr) : pystr :=
  match header_prefix_match s with
  | Some rest => rest
  | None => s
  end.

(** [clean_header]; [None] is Python's [None]. *)
Definition clean_header (header : option pystr) : pystr :=
  match header with
  | None => []
  | Some h => strip (header_prefix_sub h)
  end.

(** [collect_sentences].  A cell of the series is [None] when it is missing
    (NaN), and otherwise carries the text that [astype(str)] gives it. *)
Definition dropna (series : list (option pystr)) : list pystr :=
  omap id series.

Definition collect_sentences (series : list (option pystr)) : list pystr :=
  fold_left
    (λ sentences value,
       let text := strip value in
       match text with
       | [] => sentences
       | _ => sentences ++ [text]
       end)
    (dropna series) [].

(** ** merge_rearrange.py *)

(** [normalize_code]; for a [str] argument [str(code or "")] is [code]. *)
Definition normalize_code (code : pystr) : pystr :=
  let s := strip code in
  let s := multispace_sub s in
  let s := rstrip_chars (λ c, (c =? SLASH)%N) s in
  str_lower s.

(** *** Column selection and reordering *)

Definition SAMPLE_CODE : pystr :=
  [115; 97; 109; 112; 108; 101; 95; 99; 111; 100; 101]%N.
Definition GPT_PARAGRAPH : pystr :=
  [103; 112; 116; 95; 112; 97; 114; 97; 103; 114; 97; 112; 104]%N.

Definition columns (df : DataFrame) : list pystr := map fst df.

(** [label in df.columns] *)
Definition has_column (label : pystr) (df : DataFrame) : bool :=
  bool_decide (label ∈ columns df).

(** [df[label]]: the column that carries the label. *)
Fixpoint column (label : pystr) (df : DataFrame) : option (list pystr) :=
  match df with
  | [] => None
  | (l, cells) :: df' =>
      if decide (l = label) then Some cells else column label df'
  end.

(** The frame that [ensure_columns] returns: two columns, labelled
    [sample_code] and [gpt_paragraph]. *)
Record Frame2 := {
  sample_code : list pystr;
  gpt_paragraph : list pystr
}.

(** [df[[a, b]]] relabelled [sample_code], [gpt_paragraph]. *)
Definition select2 (a b : pystr) (df : DataFrame) : option Frame2 :=
  match column a df, column b df with
  | Some ca, Some cb => Some {| sample_code := ca; gpt_paragraph := cb |}
  | _, _ => None
  end.

Definition ensure_columns (df : DataFrame) : result Frame2 :=
  if has_column SAMPLE_CODE df && has_column GPT_PARAGRAPH df then
    match select2 SAMPLE_CODE GPT_PARAGRAPH df with
    | Some tmp => Ok tmp
    | None => Raise (KeyError SAMPLE_CODE)
    end
  else
    let cols := columns df in
    match cols with
    | c0 :: c1 :: _ =>
        match select2 c0 c1 df with
        | Some tmp => Ok tmp
        | None => Raise (KeyError c0)
        end
    | _ => Raise ValueError
    end.

(** [df.iterrows()] on the two-column frame: the pairs
    [(str(row["sample_code"]), str(row["gpt_paragraph"]))] in row order. *)
Definition iterrows (df : Frame2) : list (pystr * pystr) :=
  zip (sample_code df) (gpt_paragraph df).

(** The first loop of [rearrange_file]: the dictionary from normalised
    code to the first row that carries it. *)
Definition build_mapping (rows : list (pystr * pystr))
  : gmap pystr (pystr * pystr) :=
  fold_left
    (λ mapping row,
       let orig_code := row.1 in
       let paragraph := row.2 in
       let key := normalize_code orig_code in
       match mapping !! key with
       | None => <[key := (orig_code, paragraph)]> mapping
       | Some _ => mapping
       end)
    rows ∅.

(** The second loop of [rearrange_file]: [(output_rows, missing)]. *)
Definition reorder (mapping : gmap pystr (pystr * pystr))
    (desired_order : list pystr) : list (pystr * pystr) * list pystr :=
  fold_left
    (λ acc code,
       let '(output_rows, missing) := acc in
       let key := normalize_code code in
       match mapping !! key with
       | Some row => (output_rows ++ [row], missing)
       | None => (output_rows, missing ++ [code])
       end)
    desired_order ([], []).

(** What [rearrange_file] prints and writes, in order. *)
Inductive io_event :=
  | PrintLoad
  | ToCsv (rows : list (pystr * pystr))
  | PrintSaved (n_rows : nat)
  | PrintMissing (n : nat) (missing : list pystr).

(** [rearrange_file], given what [read_csv_smart(in_csv)] returns or
    raises; the result is the exception that escapes, if any, together with
    the events up to that point. *)
Definition rearrange_file (in_csv : result DataFrame)
    (desired_order : list pystr) : result () * list io_event :=
  match in_csv with
  | Raise e => (Raise e, [PrintLoad])
  | Ok df =>
      match ensure_columns df with
      | Raise e => (Raise e, [PrintLoad])
      | Ok df =>
          let mapping := build_mapping (iterrows df) in
          let '(output_rows, missing) := reorder mapping desired_order in
          (Ok (),
           [PrintLoad; ToCsv output_rows; PrintSaved (length output_rows)]
           ++ match missing with
              | [] => []
              | _ => [PrintMissing (length missing) missing]
              end)
      end
  end.

End Sources.

(** ** Runs of the retry controller *)

(** The wrapped call raises [es], one exception per invocation, when it is
    invoked [length es] times in a row from the world [w], and leaves the
    world [w']. *)
Inductive fails_in_a_row {W} (call : M W pystr)
  : list exn → W → W → Prop :=
  | fails_nil w : fails_in_a_row call [] w w
  | fails_cons e es w w' w'' :
      call w = (Raise e, w') →
      fails_in_a_row call es w' w'' →
      fails_in_a_row call (e :: es) w w''.

(** The events of the failed attempts [attempt], [attempt + 1], ... that
    raised [es] and were retried: the invocation, the message, the sleep of
    [2 ^ attempt] seconds. *)
Fixpoint retry_log (retries attempt : nat) (es : list exn) : list ctl_event :=
  match es with
  | [] => []
  | e :: es' =>
      [Invoked; Printed (attempt + 1) retries (2 ^ attempt) e;
       Slept (2 ^ attempt)]
      ++ retry_log retries (S attempt) es'
  end.

(** A call that times out twice and then answers; its world counts the
    invocations. *)
Definition flaky_call : M nat pystr :=
  λ n, if n <? 2 then (Raise (SdkError (py "timeout")), S n)
       else (Ok (py "merged"), S n).

(** A call that times out at every invocation. *)
Definition failing_call : M nat pystr :=
  λ n, (Raise (SdkError (py "timeout")), S n).

(** An environment without the credential, the service being unreachable. *)
Definition env_without_key : Env := {|
  OPENAI_API_KEY := None;
  openai_installed := true;
  chat_completions := λ _ _ _, Failed (py "unreachable");
  responses := λ _ _ _, Failed (py "unreachable")
|}.

(** ** The key-normalisation contract, step by step

    The steps of the contract of the key normaliser, each written from its
    wording and independently of [normalize_code]: trim the outer
    whitespace, collapse every whitespace run to one space, strip the
    trailing separator, lowercase. *)

Definition trim_outer (s : pystr) : pystr :=
  rev (lstrip_chars is_space (rev (lstrip_chars is_space s))).

Equations collapse_runs (s : pystr) : pystr by wf (length s) lt :=
  collapse_runs [] := [];
  collapse_runs (c :: s') with is_space c := {
    | true => SPACE :: collapse_runs (lstrip_chars is_space s')
    | false => c :: collapse_runs s' }.
Next Obligation.
  simpl. apply Nat.lt_succ_r. clear.
  induction s' as [|x s' IH]; simpl; [done|].
  destruct (is_space x); simpl; lia.
Qed.

(** Strip one trailing separator, if there is one. *)
Definition strip_one_trailing (sep : N) (s : pystr) : pystr :=
  match rev s with
  | c :: r => if (c =? sep)%N then rev r else s
  | [] => s
  end.

(** Strip every trailing separator. *)
Definition strip_all_trailing (sep : N) (s : pystr) : pystr :=
  rev (lstrip_chars (λ c, (c =? sep)%N) (rev s)).

Definition ends_with_space (s : pystr) : bool :=
  match last s with
  | Some c => is_space c
  | None => false
  end.

Section Contract.
Context {R : Runtime}.

(** The contract as worded: a single trailing separator is stripped. *)
Definition normalize_contract (code : pystr) : pystr :=
  str_lower (strip_one_trailing SLASH (collapse_runs (trim_outer code))).

(** The same steps with every trailing separator stripped. *)
Definition normalize_contract_all (code : pystr) : pystr :=
  str_lower (strip_all_trailing SLASH (collapse_runs (trim_outer code))).

End Contract.

(** ** The loaders and the orchestration of the two scripts *)

(** What [pd.read_csv] does with one encoding: the table, or the text of the
    exception it raises. *)
Inductive parsed (T : Type) :=
  | Parsed (table : T)
  | ParseError (text : pystr).
Arguments Parsed {T} table.
Arguments ParseError {T} text.

Definition encodings_to_try : list pystr :=
  [py "utf-8-sig"; py "utf-8"; py "cp949"].

(** The loop of [read_csv_smart] over the encodings still to try, with the
    last error seen; besides the result, the encodings it tried.  The
    [RuntimeError] carries the text of the last error ([str(None)] when no
    encoding was tried). *)
Fixpoint read_csv_from {T} (read_csv : pystr → parsed T)
    (encodings : list pystr) (last_err : option pystr)
  : result T * list pystr :=
  match encodings with
  | [] => (Raise (RuntimeError (default (py "None") last_err)), [])
  | enc :: rest =>
      match read_csv enc with
      | Parsed df => (Ok df, [enc])
      | ParseError e =>
          let '(r, tried) := read_csv_from read_csv rest (Some e) in
          (r, enc :: tried)
      end
  end.

(** [read_csv_smart] of both scripts; they differ in the options passed to
    [pd.read_csv], which are part of [read_csv]. *)
Definition read_csv_smart {T} (read_csv : pystr → parsed T)
  : result T * list pystr :=
  read_csv_from read_csv encodings_to_try None.

(** A raw table of the merge stage: its columns in order, each with its
    header and its cells in row order, a missing cell being [None]. *)
Abbreviation RawFrame := (list (pystr * list (option pystr))).

(** The columns of a raw table that carry the label. *)
Definition labelled (label : pystr) (df : RawFrame) : RawFrame :=
  List.filter (λ col, bool_decide (col.1 = label)) df.

(** What [df[label]] selects: the cells of the column that carries the
    label when there is one such column, a [Series]; the table of the
    columns that carry it when there are several.  Headers that differ
    before the cleaning can be equal after it. *)
Inductive selection :=
  | Series (cells : list (option pystr))
  | SubFrame (cols : RawFrame).

Definition getitem (label : pystr) (df : RawFrame) : result selection :=
  match labelled label df with
  | [] => Raise (KeyError label)
  | [col] => Ok (Series col.2)
  | cols => Ok (SubFrame cols)
  end.

(** What the loop of [collect_sentences] runs over.  Iterating a [Series]
    gives its cells; iterating a table gives the labels of its columns,
    whatever its rows are, so that [dropna()] and [astype(str)] change
    nothing to it. *)
Definition iterated (sel : selection) : list (option pystr) :=
  match sel with
  | Series cells => cells
  | SubFrame cols => map (λ col, Some col.1) cols
  end.

(** What [process_file] and [main] of the merge script do, in order: the
    start message, the encodings tried by the loader, the events of the
    retry controller, the message per column, the written table and the
    closing messages. *)
Inductive merge_event :=
  | PrintStart (name : pystr)
  | ReadCsv (encoding : pystr)
  | Retry (ev : ctl_event)
  | PrintColumn (code : pystr) (n_sentences : nat)
  | WriteCsv (path : pystr) (rows : list (pystr * pystr))
  | PrintDone (path : pystr) (n_rows : nat)
  | PrintAllDone.

Definition written_paths (log : list merge_event) : list pystr :=
  omap (λ ev, match ev with WriteCsv path _ => Some path | _ => None end) log.

Definition printed_columns (log : list merge_event) : list pystr :=
  omap (λ ev, match ev with PrintColumn code _ => Some code | _ => None end) log.

Definition retry_events (log : list merge_event) : list ctl_event :=
  omap (λ ev, match ev with Retry ev => Some ev | _ => None end) log.

(** [user_content] of [call_openai_merge]. *)
Definition user_content_of (sentences : list pystr) : pystr :=
  prompt_header ++ list_heading
  ++ join [NEWLINE] (map (λ s, py "- " ++ s) sentences).

(** The header pattern read as one scan from the left, without giving
    anything back: whitespace, then digits (one at least), then a dot, then
    whitespace; the rest of the header after that, if all were found. *)
Definition scan_header_prefix (s : pystr) : option pystr :=
  let s1 := lstrip_chars is_space s in
  match s1 with
  | d :: _ =>
      if ascii_digit d then
        match lstrip_chars ascii_digit s1 with
        | c :: s3 =>
            if (c =? DOT)%N then Some (lstrip_chars is_space s3) else None
        | [] => None
        end
      else None
  | [] => None
  end.

Definition MODEL : pystr := py "gpt-5.1".

(** [io_map] of [main], in insertion order. *)
Definition io_map : list (pystr * pystr) :=
  [(py "beauty.csv", py "beauty_gpt.csv");
   (py "homeAppliance.csv", py "homeAppliance_gpt.csv");
   (py "life.csv", py "life_gpt.csv")].

(** Environments with a credential: the service unreachable, and the
    service answering every chat request with the same paragraph. *)
Definition env_unreachable : Env := {|
  OPENAI_API_KEY := Some (py "sk-test");
  openai_installed := true;
  chat_completions := λ _ _ _, Failed (py "unreachable");
  responses := λ _ _ _, Failed (py "unreachable")
|}.

Definition env_answering : Env := {|
  OPENAI_API_KEY := Some (py "sk-test");
  openai_installed := true;
  chat_completions := λ _ _ _, Returned [Some (py " Soft and calm. ")];
  responses := λ _ _ _, Failed (py "unreachable")
|}.

(** Sample raw tables, and loaders on which utf-8-sig fails and utf-8
    parses. *)
Definition sample_raw : RawFrame :=
  [(py "1. A-01", [Some (py " soft "); None; Some (py "calm")]);
   (py "2. B-02", [None; Some (py "  "); None])].

Definition sample_blank : RawFrame :=
  [(py "1. A-01", [None; Some (py " ")]); (py "2. B-02", [None; None])].

Definition read_as (df : RawFrame) : pystr → parsed RawFrame :=
  λ enc, if decide (enc = py "utf-8-sig")
         then ParseError (py "invalid start byte")
         else Parsed df.

Section Orchestrator.
Context {R : Runtime}.

(** [clean_column_names] *)
Definition clean_column_names (df : RawFrame) : RawFrame :=
  map (λ col, (clean_header (Some col.1), col.2)) df.

(** The loop of [process_file] over the sample codes still to merge, with
    the results so far. *)
Fixpoint process_columns (env : Env) (model : pystr) (df : RawFrame)
    (sample_codes : list pystr) (results : list (pystr * pystr))
  : M (list request * list merge_event) (list (pystr * pystr)) :=
  match sample_codes with
  | [] => ret results
  | code :: rest =>
      λ '(sent, log),
        match getitem code df with
        | Raise e => (Raise e, (sent, log))
        | Ok col_series =>
            let sentences := collect_sentences (iterated col_series) in
            match sentences with
            | [] =>
                process_columns env model df rest (results ++ [(code, [])])
                  (sent, log ++ [PrintColumn code (length sentences)])
            | _ =>
                match backoff_call env sentences model DEFAULT_RETRIES
                        (sent, []) with
                | (Ok merged_paragraph, (sent', ctl)) =>
                    process_columns env model df rest
                      (results ++ [(code, merged_paragraph)])
                      (sent', log ++ (Retry <$> ctl)
                              ++ [PrintColumn code (length sentences)])
                | (Raise e, (sent', ctl)) =>
                    (Raise e, (sent', log ++ (Retry <$> ctl)))
                end
            end
        end
  end.

(** [process_file]; [read_csv] is [pd.read_csv] on the input path, [to_csv]
    tells the exception that [out_df.to_csv] raises on the output path for
    the rows, if any, and the paths are given by their file names. *)
Definition process_file (env : Env) (read_csv : pystr → parsed RawFrame)
    (to_csv : list (pystr * pystr) → option exn)
    (input_name output_name : pystr) (model : pystr)
  : M (list request * list merge_event) () :=
  λ '(sent, log),
    let log := log ++ [PrintStart input_name] in
    match read_csv_smart read_csv with
    | (Raise e, tried) => (Raise e, (sent, log ++ (ReadCsv <$> tried)))
    | (Ok df, tried) =>
        let df := clean_column_names df in
        let sample_codes := map fst df in
        match process_columns env model df sample_codes []
                (sent, log ++ (ReadCsv <$> tried)) with
        | (Ok results, (sent', log')) =>
            match to_csv results with
            | Some e => (Raise e, (sent', log'))
            | None =>
                (Ok (),
                 (sent', log' ++ [WriteCsv output_name results;
                                  PrintDone output_name (length results)]))
            end
        | (Raise e, st) => (Raise e, st)
        end
    end.

(** The loop of [main] of the merge script over the files still to process;
    [fs] gives [pd.read_csv] for each input file and [out] gives [to_csv]
    for each output file. *)
Fixpoint main_from (env : Env) (fs : pystr → pystr → parsed RawFrame)
    (out : pystr → list (pystr * pystr) → option exn)
    (files : list (pystr * pystr))
  : M (list request * list merge_event) () :=
  match files with
  | [] => λ '(sent, log), (Ok (), (sent, log ++ [PrintAllDone]))
  | (in_name, out_name) :: rest =>
      λ st,
        match process_file env (fs in_name) (out out_name)
                in_name out_name MODEL st with
        | (Ok _, st') => main_from env fs out rest st'
        | (Raise e, st') => (Raise e, st')
        end
  end.

(** [main] of the merge script.  [get_base_and_dirs] creates the output
    directory first; [mkdir] tells the exception that [out_dir.mkdir]
    raises, if any. *)
Definition main (env : Env) (fs : pystr → pystr → parsed RawFrame)
    (out : pystr → list (pystr * pystr) → option exn) (mkdir : option exn)
  : M (list request * list merge_event) () :=
  match mkdir with
  | Some e => raise e
  | None => main_from env fs out io_map
  end.

(** The sentences that [process_file] merges for a sample code: those of
    what [df[code]] selects; none for a label that the table does not
    carry. *)
Definition sentences_of (code : pystr) (df : RawFrame) : list pystr :=
  match getitem code df with
  | Ok sel => collect_sentences (iterated sel)
  | Raise _ => []
  end.

(** [rearrange_file] from the loader on: [read_csv] is [pd.read_csv] on the
    input path with [dtype=str] and [keep_default_na=False], and [to_csv]
    tells the exception that [out_df.to_csv] raises on the output path for
    the rows, if any. *)
Definition rearrange_path (read_csv : pystr → parsed DataFrame)
    (to_csv : list (pystr * pystr) → option exn)
    (desired_order : list pystr) : result () * list io_event :=
  match (read_csv_smart read_csv).1 with
  | Raise e => (Raise e, [PrintLoad])
  | Ok df =>
      match ensure_columns df with
      | Raise e => (Raise e, [PrintLoad])
      | Ok df =>
          let mapping := build_mapping (iterrows df) in
          let '(output_rows, missing) := reorder mapping desired_order in
          match to_csv output_rows with
          | Some e => (Raise e, [PrintLoad])
          | None =>
              (Ok (),
               [PrintLoad; ToCsv output_rows; PrintSaved (length output_rows)]
               ++ match missing with
                  | [] => []
                  | _ => [PrintMissing (length missing) missing]
                  end)
          end
      end
  end.

End Orchestrator.

(** The rows merged from columns, each given by its sample code and its
    sentences, in order: a column without sentences gets the empty
    paragraph and no call; any other gets the paragraph that [backoff_call]
    returns for its sentences, called with the requests sent so far.  The
    relation carries the requests sent before the first column and after
    the last. *)
Inductive merged_rows (env : Env) (model : pystr)
  : list (pystr * list pystr) → list request
    → list (pystr * pystr) → list request → Prop :=
  | merged_nil sent : merged_rows env model [] sent [] sent
  | merged_blank code todo sent rows sent' :
      merged_rows env model todo sent rows sent' →
      merged_rows env model ((code, []) :: todo) sent ((code, []) :: rows) sent'
  | merged_call code sentences todo sent paragraph sent1 ctl rows sent' :
      sentences ≠ [] →
      backoff_call env sentences model DEFAULT_RETRIES (sent, [])
      = (Ok paragraph, (sent1, ctl)) →
      merged_rows env model todo sent1 rows sent' →
      merged_rows env model ((code, sentences) :: todo) sent
        ((code, paragraph) :: rows) sent'.

(** * Properties *)

(** ** The functions on sample inputs *)

Example normalize_code_ex :
  normalize_code (R := ascii_runtime) (py " A  b/ ") = py "a b".
Proof. reflexivity. Qed.

Example clean_header_ex :
  clean_header (R := ascii_runtime) (Some (py " 12.  Gold ")) = py "Gold".
Proof. reflexivity. Qed.

Example reorder_ex :
  reorder (R := ascii_runtime)
    (build_mapping (R := ascii_runtime) [(py "a", py "x"); (py "B", py "y")])
    [py "A"; py "b "; py "C"]
  = ([(py "a", py "x"); (py "B", py "y")], [py "C"]).
Proof. vm_compute. reflexivity. Qed.

(** ** Stripping *)

Section Strip.
Variable p : N → bool.

Lemma lstrip_chars_head c r s : lstrip_chars p s = c :: r → p c = false.
Proof.
  induction s as [|x s IH]; simpl; [done|].
  destruct (p x) eqn:Hx; [done|]. intros [= <- _]. done.
Qed.

Lemma lstrip_chars_id c s : p c = false → lstrip_chars p (c :: s) = c :: s.
Proof. intros Hc. simpl. by rewrite Hc. Qed.

Lemma lstrip_chars_length s : length (lstrip_chars p s) ≤ length s.
Proof.
  induction s as [|x s IH]; simpl; [done|].
  destruct (p x); simpl; lia.
Qed.

Lemma rstrip_chars_cons c s :
  p c = false → rstrip_chars p (c :: s) = c :: rstrip_chars p s.
Proof. intros Hc. simpl. rewrite Hc. by destruct (rstrip_chars p s). Qed.

Lemma rstrip_chars_cons_ne c s :
  rstrip_chars p s ≠ [] → rstrip_chars p (c :: s) = c :: rstrip_chars p s.
Proof. intros Hne. simpl. by destruct (rstrip_chars p s). Qed.

Lemma rstrip_chars_cons_nil c s :
  p c = true → rstrip_chars p s = [] → rstrip_chars p (c :: s) = [].
Proof. intros Hc Hs. simpl. by rewrite Hs, Hc. Qed.

Lemma rstrip_chars_cases c s :
  rstrip_chars p (c :: s) = [] ∨ rstrip_chars p (c :: s) = c :: rstrip_chars p s.
Proof.
  simpl. destruct (rstrip_chars p s); [|by right].
  destruct (p c); [by left|by right].
Qed.

Lemma rstrip_chars_length s : length (rstrip_chars p s) ≤ length s.
Proof.
  induction s as [|x s IH]; [done|].
  destruct (rstrip_chars_cases x s) as [-> | ->]; simpl; lia.
Qed.

Lemma rstrip_chars_last s c : last (rstrip_chars p s) = Some c → p c = false.
Proof.
  induction s as [|x s IH]; simpl; [done|].
  destruct (rstrip_chars p s) as [|y r] eqn:Hr.
  - destruct (p x) eqn:Hx; simpl; [done|]. by intros [= <-].
  - intros Hl. apply IH. by rewrite last_cons_cons in Hl.
Qed.

(** A string whose last character is kept has nothing to strip. *)
Lemma rstrip_chars_fix s :
  (∀ c, last s = Some c → p c = false) → rstrip_chars p s = s.
Proof.
  induction s as [|x s IH]; [done|]. intros Hl.
  destruct s as [|y s].
  - simpl. by rewrite (Hl x).
  - rewrite rstrip_chars_cons_ne.
    + f_equal. apply IH. intros c Hc. apply Hl. by rewrite last_cons_cons.
    + rewrite IH; [done|]. intros c Hc. apply Hl. by rewrite last_cons_cons.
Qed.

Lemma rstrip_chars_idemp s :
  rstrip_chars p (rstrip_chars p s) = rstrip_chars p s.
Proof. apply rstrip_chars_fix, rstrip_chars_last. Qed.

Lemma rstrip_chars_head s c r :
  rstrip_chars p s = c :: r → head s = Some c.
Proof.
  destruct s as [|x s]; [done|].
  destruct (rstrip_chars_cases x s) as [-> | ->]; [done|]. by intros [= -> _].
Qed.

(** Stripping on the right is stripping the reversed string on the left. *)
Lemma rstrip_chars_snoc s c :
  rstrip_chars p (s ++ [c]) = if p c then rstrip_chars p s else s ++ [c].
Proof.
  induction s as [|x s IH].
  - simpl. by destruct (p c).
  - rewrite <- app_comm_cons. simpl. rewrite IH. destruct (p c) eqn:Hc; [done|].
    by destruct (s ++ [c]) eqn:Hs; [destruct s|].
Qed.

Lemma rstrip_chars_rev s :
  rstrip_chars p s = rev (lstrip_chars p (rev s)).
Proof.
  induction s as [|x s IH] using rev_ind; [done|].
  rewrite rstrip_chars_snoc, rev_app_distr. simpl.
  destruct (p x); [done|]. simpl. by rewrite rev_involutive.
Qed.

End Strip.

Lemma strip_head s c r : strip s = c :: r → is_space c = false.
Proof.
  unfold strip. intros Hs.
  apply rstrip_chars_head in Hs.
  destruct (lstrip_chars is_space s) as [|y t] eqn:Hl; [done|].
  injection Hs as ->. by apply lstrip_chars_head in Hl.
Qed.

Lemma strip_last s c : last (strip s) = Some c → is_space c = false.
Proof. apply rstrip_chars_last. Qed.

(** A string that neither starts nor ends with whitespace is its own
    [strip()]. *)
Lemma strip_fix s :
  (∀ c, head s = Some c → is_space c = false) →
  (∀ c, last s = Some c → is_space c = false) →
  strip s = s.
Proof.
  intros Hh Hl. unfold strip.
  destruct s as [|x s]; [done|].
  rewrite lstrip_chars_id; [|by apply Hh].
  by apply rstrip_chars_fix.
Qed.

Lemma strip_idemp s : strip (strip s) = strip s.
Proof.
  apply strip_fix; [|apply strip_last].
  intros c Hc. destruct (strip s) as [|y r] eqn:Hs; [done|].
  injection Hc as ->. by apply strip_head in Hs.
Qed.

Lemma strip_length s : length (strip s) ≤ length s.
Proof.
  unfold strip.
  etrans; [apply rstrip_chars_length | apply lstrip_chars_length].
Qed.

Lemma strip_not_blank s : strip s ≠ [] → forallb is_space (strip s) = false.
Proof.
  destruct (strip s) as [|c r] eqn:Hs; [done|]. intros _.
  apply strip_head in Hs. simpl. by rewrite Hs.
Qed.

(** ** Sentence collection *)

Lemma collect_sentences_fold (values : list pystr) (acc : list pystr) :
  fold_left
    (λ sentences value,
       let text := strip value in
       match text with
       | [] => sentences
       | _ => sentences ++ [text]
       end) values acc
  = acc ++ filter (λ t, t ≠ []) (strip <$> values).
Proof.
  revert acc. induction values as [|v values IH]; intros acc; simpl.
  - by rewrite app_nil_r.
  - rewrite IH. destruct (strip v) as [|c r] eqn:Hv.
    + by rewrite filter_cons_False by (intros H; by apply H).
    + rewrite filter_cons_True by done. by rewrite <- app_assoc.
Qed.

(** C8. [collect_sentences] returns the trimmed texts of the cells that are
    present and not empty once trimmed, in row order; no returned sentence
    is empty or made of whitespace only, and a missing cell leaves no
    entry. *)
Theorem collect_sentences_trimmed_nonempty (series : list (option pystr)) :
  collect_sentences series
  = filter (λ t, t ≠ []) (strip <$> omap id series)
  ∧ Forall (λ t, t ≠ [] ∧ forallb is_space t = false ∧ strip t = t)
      (collect_sentences series)
  ∧ length (collect_sentences series) ≤ length (omap id series).
Proof.
  assert (Heq : collect_sentences series
                = filter (λ t, t ≠ []) (strip <$> omap id series)).
  { unfold collect_sentences, dropna. by rewrite collect_sentences_fold. }
  split; [done|]. rewrite Heq. split.
  - apply Forall_forall. intros t Ht.
    apply list_elem_of_filter in Ht as [Hne Ht].
    apply list_elem_of_fmap in Ht as (v & -> & _).
    split; [done|]. split; [by apply strip_not_blank | apply strip_idemp].
  - etrans; [apply length_filter|]. by rewrite length_fmap.
Qed.

(** ** Header cleaning *)

Lemma re_star_rest p s k r :
  re_star p s k = Some r → ∃ s1, length s1 ≤ length s ∧ k s1 = Some r.
Proof.
  induction s as [|c s IH]; simpl.
  - intros Hk. by exists [].
  - destruct (p c).
    + destruct (re_star p s k) as [r'|] eqn:Hs.
      * intros [= <-]. destruct (IH eq_refl) as (s1 & Hlen & Hk).
        exists s1. split; [lia|done].
      * intros Hk. by exists (c :: s).
    + intros Hk. by exists (c :: s).
Qed.

Lemma re_plus_rest p s k r :
  re_plus p s k = Some r → ∃ s1, length s1 < length s ∧ k s1 = Some r.
Proof.
  destruct s as [|c s]; simpl; [done|].
  destruct (p c); [|done]. intros Hs.
  apply re_star_rest in Hs as (s1 & Hlen & Hk).
  exists s1. split; [lia|done].
Qed.

Lemma re_lit_rest c0 s k r :
  re_lit c0 s k = Some r → ∃ s1, length s1 < length s ∧ k s1 = Some r.
Proof.
  destruct s as [|c s]; simpl; [done|].
  destruct (c =? c0)%N; [|done]. intros Hk. exists s. split; [lia|done].
Qed.

(** On ASCII subjects a pattern only depends on what its classes are on
    the ASCII block. *)
Lemma re_star_ext p q s k k' :
  (∀ c, is_ascii c = true → p c = q c) →
  (∀ s1, forallb is_ascii s1 = true → k s1 = k' s1) →
  forallb is_ascii s = true →
  re_star p s k = re_star q s k'.
Proof.
  intros Hpq Hk. induction s as [|c s IH]; intros Hs; simpl; [by apply Hk|].
  pose proof Hs as Hs0. simpl in Hs0. apply andb_true_iff in Hs0 as [Hc Hs'].
  by rewrite (Hpq c Hc), (IH Hs'), (Hk (c :: s) Hs).
Qed.

Section Header.
Context {R : Runtime}.

Lemma clean_header_ascii_runtime (h : pystr) :
  forallb is_ascii h = true →
  clean_header (Some h) = clean_header (R := ascii_runtime) (Some h).
Proof.
  intros Hh. simpl. f_equal. unfold header_prefix_sub, header_prefix_match.
  rewrite (re_star_ext is_space is_space h _
             (λ s1, re_plus ascii_digit s1 (λ s2,
                      re_lit DOT s2 (λ s3, re_star is_space s3 Some))));
    [done|done| |done].
  intros [|c s1] Hs1; simpl; [done|].
  apply andb_true_iff in Hs1 as [Hc Hs1].
  rewrite (is_decimal_ascii c Hc). destruct (ascii_digit c); [|done].
  apply re_star_ext; [apply is_decimal_ascii | done | done].
Qed.

(** Whatever the runtime, "1. 2. x" loses one marker per cleaning. *)
Lemma clean_header_two_markers :
  clean_header (Some (py "1. 2. x")) = py "2. x"
  ∧ clean_header (Some (py "2. x")) = py "x".
Proof.
  rewrite (clean_header_ascii_runtime (py "1. 2. x")),
    (clean_header_ascii_runtime (py "2. x")) by reflexivity.
  by split.
Qed.

(** A match of the header pattern consumes at least a digit and the dot. *)
Lemma header_prefix_match_shorter s rest :
  header_prefix_match s = Some rest → length rest + 2 ≤ length s.
Proof.
  unfold header_prefix_match. intros H.
  apply re_star_rest in H as (s1 & H1 & H).
  apply re_plus_rest in H as (s2 & H2 & H).
  apply re_lit_rest in H as (s3 & H3 & H).
  apply re_star_rest in H as (s4 & H4 & [= <-]). lia.
Qed.

(** C5, amended.  Cleaning a header a second time changes nothing exactly
    when the cleaned header does not itself start with an enumeration marker
    (digits and a dot); a second marker is removed by the second
    application. *)
Theorem clean_header_idempotent_iff (h : pystr) :
  clean_header (Some (clean_header (Some h))) = clean_header (Some h)
  ↔ header_prefix_match (clean_header (Some h)) = None.
Proof.
  simpl. set (r := strip (header_prefix_sub h)).
  assert (Hr : strip r = r) by apply strip_idemp.
  unfold header_prefix_sub at 1.
  destruct (header_prefix_match r) as [rest|] eqn:Hm.
  - split; [|done]. intros Heq.
    apply header_prefix_match_shorter in Hm.
    pose proof (strip_length rest) as Hlen. rewrite Heq in Hlen. lia.
  - done.
Qed.

End Header.

(** C5.  The header "1. 2. x" is cleaned to "2. x", and cleaning that again
    gives "x": [clean_header] is not idempotent on it. *)
Lemma clean_header_not_idempotent :
  clean_header (R := ascii_runtime) (Some (py "1. 2. x")) = py "2. x"
  ∧ clean_header (R := ascii_runtime)
      (Some (clean_header (R := ascii_runtime) (Some (py "1. 2. x"))))
    ≠ clean_header (R := ascii_runtime) (Some (py "1. 2. x")).
Proof. split; [reflexivity | vm_compute; discriminate]. Qed.

Lemma clean_header_idempotent_iff_witness :
  clean_header (R := ascii_runtime)
    (Some (clean_header (R := ascii_runtime) (Some (py " 3.  Gold "))))
  = clean_header (R := ascii_runtime) (Some (py " 3.  Gold ")).
Proof.
  apply (clean_header_idempotent_iff (R := ascii_runtime) (py " 3.  Gold ")).
  reflexivity.
Defined.

(** ** Key normalisation *)

Lemma multispace_sub_from_lstrip s :
  multispace_sub_from true s
  = multispace_sub_from false (lstrip_chars is_space s).
Proof.
  induction s as [|c s IH]; simpl; [done|].
  destruct (is_space c) eqn:Hc; [done|]. simpl. by rewrite Hc.
Qed.

Lemma multispace_sub_collapse_runs s : multispace_sub s = collapse_runs s.
Proof.
  unfold multispace_sub.
  funelim (collapse_runs s); simpl; [done|..]; rewrite Heq.
  - by rewrite multispace_sub_from_lstrip, H.
  - by rewrite H.
Qed.

Lemma strip_trim_outer s : strip s = trim_outer s.
Proof. unfold strip, trim_outer. apply rstrip_chars_rev. Qed.

Lemma strip_all_one_trailing sep s :
  (∀ r, s ≠ r ++ [sep; sep]) →
  strip_all_trailing sep s = strip_one_trailing sep s.
Proof.
  intros Hs. unfold strip_all_trailing, strip_one_trailing.
  destruct (rev s) as [|c r] eqn:Hrev; [by rewrite <- (rev_involutive s), Hrev|].
  simpl. destruct (c =? sep)%N eqn:Hc.
  - apply N.eqb_eq in Hc as ->.
    destruct r as [|c' r']; [done|]. simpl.
    destruct (c' =? sep)%N eqn:Hc'; [|done].
    apply N.eqb_eq in Hc' as ->. exfalso. apply (Hs (rev r')).
    rewrite <- (rev_involutive s), Hrev. simpl. by rewrite <- app_assoc.
  - by rewrite <- Hrev, rev_involutive.
Qed.

(** C7, amended.  [normalize_code] is the composition: trim the outer
    whitespace, collapse every whitespace run to one space, strip every
    trailing "/", lowercase.  It is the composition that strips a single
    trailing "/" whenever the trimmed and collapsed code does not end in two
    of them. *)
Theorem normalize_code_steps {R : Runtime} (code : pystr) :
  normalize_code code = normalize_contract_all code
  ∧ ((∀ r, collapse_runs (trim_outer code) ≠ r ++ [SLASH; SLASH]) →
     normalize_code code = normalize_contract code).
Proof.
  assert (Hall : normalize_code code = normalize_contract_all code).
  { unfold normalize_code, normalize_contract_all, strip_all_trailing.
    by rewrite strip_trim_outer, multispace_sub_collapse_runs, rstrip_chars_rev. }
  split; [done|]. intros Hs. rewrite Hall.
  unfold normalize_contract_all, normalize_contract.
  by rewrite strip_all_one_trailing.
Qed.

Lemma normalize_code_steps_witness :
  normalize_code (R := ascii_runtime) (py " Hg-0760  GP/ ")
  = normalize_contract (R := ascii_runtime) (py " Hg-0760  GP/ ").
Proof.
  apply (normalize_code_steps (R := ascii_runtime) (py " Hg-0760  GP/ ")).
  intros r Hr. apply (f_equal (λ l, take 2 (rev l))) in Hr.
  rewrite rev_app_distr in Hr. vm_compute in Hr. discriminate.
Defined.

(** C7.  On "a//" the code strips both separators, where the contract as
    worded strips one and keeps the other. *)
Lemma normalize_code_strips_all_separators :
  normalize_code (R := ascii_runtime) (py "a//") = py "a"
  ∧ normalize_contract (R := ascii_runtime) (py "a//") = py "a/"
  ∧ normalize_code (R := ascii_runtime) (py "a//")
    ≠ normalize_contract (R := ascii_runtime) (py "a//").
Proof. split; [reflexivity|]. split; [reflexivity|]. vm_compute. discriminate. Qed.

(** *** Character maps that respect whitespace and the separator *)

Section CharMap.
Variable f : N → N.
Hypothesis f_space : ∀ c, is_space (f c) = is_space c.
Hypothesis f_slash : ∀ c, (f c =? SLASH)%N = (c =? SLASH)%N.
Hypothesis f_SPACE : f SPACE = SPACE.

Lemma lstrip_chars_map p s :
  (∀ c, p (f c) = p c) →
  lstrip_chars p (map f s) = map f (lstrip_chars p s).
Proof.
  intros Hp. induction s as [|c s IH]; simpl; [done|].
  rewrite Hp. by destruct (p c).
Qed.

Lemma rstrip_chars_map p s :
  (∀ c, p (f c) = p c) →
  rstrip_chars p (map f s) = map f (rstrip_chars p s).
Proof.
  intros Hp. induction s as [|c s IH]; simpl; [done|].
  rewrite IH, Hp. destruct (rstrip_chars p s); simpl; [|done].
  by destruct (p c).
Qed.

Lemma strip_map s : strip (map f s) = map f (strip s).
Proof. unfold strip. by rewrite lstrip_chars_map, rstrip_chars_map. Qed.

Lemma multispace_sub_from_map b s :
  multispace_sub_from b (map f s) = map f (multispace_sub_from b s).
Proof.
  revert b. induction s as [|c s IH]; intros b; simpl; [done|].
  rewrite f_space, !IH. destruct (is_space c), b; simpl; by rewrite ?f_SPACE.
Qed.

(** The steps of [normalize_code] before the lowercasing commute with [f]. *)
Lemma normalize_steps_map s :
  rstrip_chars (λ c, (c =? SLASH)%N) (multispace_sub (strip (map f s)))
  = map f (rstrip_chars (λ c, (c =? SLASH)%N) (multispace_sub (strip s))).
Proof.
  unfold multispace_sub.
  by rewrite strip_map, multispace_sub_from_map, rstrip_chars_map.
Qed.

End CharMap.

Lemma in_range_spec (lo hi c : N) : in_range lo hi c = true ↔ (lo ≤ c ≤ hi)%N.
Proof. unfold in_range. rewrite andb_true_iff, !N.leb_le. done. Qed.

Lemma in_range_false (lo hi c : N) : (c < lo ∨ hi < c)%N → in_range lo hi c = false.
Proof.
  intros H. apply not_true_is_false. rewrite in_range_spec. lia.
Qed.

Lemma is_space_false (c : N) : (32 < c < 133)%N → is_space c = false.
Proof.
  intros Hc. unfold is_space.
  rewrite !(in_range_false _ _ c) by lia.
  repeat match goal with
  | |- context [(c =? ?n)%N] =>
      replace (c =? n)%N with false by (symmetry; apply N.eqb_neq; lia)
  end.
  done.
Qed.

Lemma ascii_lower_cases (c : N) :
  ((65 ≤ c ≤ 90)%N ∧ ascii_lower c = (c + 32)%N)
  ∨ (¬ (65 ≤ c ≤ 90)%N ∧ ascii_lower c = c).
Proof.
  unfold ascii_lower. destruct (in_range 65 90 c) eqn:H.
  - left. by apply in_range_spec in H.
  - right. split; [|done]. intros H'. apply in_range_spec in H'. congruence.
Qed.

Lemma ascii_upper_cases (c : N) :
  ((97 ≤ c ≤ 122)%N ∧ ascii_upper c = (c - 32)%N)
  ∨ (¬ (97 ≤ c ≤ 122)%N ∧ ascii_upper c = c).
Proof.
  unfold ascii_upper. destruct (in_range 97 122 c) eqn:H.
  - left. by apply in_range_spec in H.
  - right. split; [|done]. intros H'. apply in_range_spec in H'. congruence.
Qed.

Lemma ascii_lower_space (c : N) : is_space (ascii_lower c) = is_space c.
Proof.
  destruct (ascii_lower_cases c) as [[Hc ->] | [_ ->]]; [|done].
  by rewrite !is_space_false by lia.
Qed.

Lemma ascii_upper_space (c : N) : is_space (ascii_upper c) = is_space c.
Proof.
  destruct (ascii_upper_cases c) as [[Hc ->] | [_ ->]]; [|done].
  by rewrite !is_space_false by lia.
Qed.

Lemma ascii_lower_slash (c : N) : (ascii_lower c =? SLASH)%N = (c =? SLASH)%N.
Proof.
  unfold SLASH.
  destruct (ascii_lower_cases c) as [[Hc ->] | [_ ->]]; [|done].
  transitivity false; [|symmetry]; apply N.eqb_neq; lia.
Qed.

Lemma ascii_upper_slash (c : N) : (ascii_upper c =? SLASH)%N = (c =? SLASH)%N.
Proof.
  unfold SLASH.
  destruct (ascii_upper_cases c) as [[Hc ->] | [_ ->]]; [|done].
  transitivity false; [|symmetry]; apply N.eqb_neq; lia.
Qed.

Lemma ascii_lower_idemp (c : N) : ascii_lower (ascii_lower c) = ascii_lower c.
Proof.
  destruct (ascii_lower_cases c) as [[Hc E] | [_ E]]; rewrite !E; [|done].
  destruct (ascii_lower_cases (c + 32)) as [[Hc' _] | [_ E']]; [lia|done].
Qed.


Lemma ascii_upper_is_ascii (c : N) : is_ascii c = true → is_ascii (ascii_upper c) = true.
Proof.
  unfold is_ascii. rewrite !N.ltb_lt.
  destruct (ascii_upper_cases c) as [[Hc ->] | [_ ->]]; lia.
Qed.

(** *** Strings of the ASCII block *)

Lemma lstrip_chars_forallb (q p : N → bool) s :
  forallb q s = true → forallb q (lstrip_chars p s) = true.
Proof.
  induction s as [|c s IH]; simpl; [done|].
  intros [Hc Hs]%andb_true_iff. destruct (p c); [by apply IH|].
  simpl. by rewrite Hc, Hs.
Qed.

Lemma rstrip_chars_forallb (q p : N → bool) s :
  forallb q s = true → forallb q (rstrip_chars p s) = true.
Proof.
  induction s as [|c s IH]; [done|].
  intros [Hc Hs]%andb_true_iff.
  destruct (rstrip_chars_cases p c s) as [-> | ->]; [done|].
  simpl. by rewrite Hc, IH.
Qed.

Lemma multispace_sub_from_ascii b s :
  forallb is_ascii s = true →
  forallb is_ascii (multispace_sub_from b s) = true.
Proof.
  revert b. induction s as [|c s IH]; intros b; simpl; [done|].
  intros [Hc Hs]%andb_true_iff.
  destruct (is_space c), b; simpl; rewrite ?Hc, ?IH; done.
Qed.

Lemma normalize_steps_ascii s :
  forallb is_ascii s = true →
  forallb is_ascii
    (rstrip_chars (λ c, (c =? SLASH)%N) (multispace_sub (strip s))) = true.
Proof.
  intros Hs. apply rstrip_chars_forallb, multispace_sub_from_ascii.
  by apply rstrip_chars_forallb, lstrip_chars_forallb.
Qed.

Lemma map_ascii_lower_ascii s :
  forallb is_ascii s = true → forallb is_ascii (map ascii_lower s) = true.
Proof.
  induction s as [|c s IH]; simpl; [done|].
  intros [Hc Hs]%andb_true_iff. rewrite IH by done.
  rewrite andb_true_r. unfold is_ascii in *. apply N.ltb_lt in Hc.
  apply N.ltb_lt.
  destruct (ascii_lower_cases c) as [[Hr E] | [_ E]]; rewrite E; lia.
Qed.

Lemma map_ascii_upper_ascii s :
  forallb is_ascii s = true → forallb is_ascii (map ascii_upper s) = true.
Proof.
  induction s as [|c s IH]; simpl; [done|].
  intros [Hc Hs]%andb_true_iff.
  by rewrite IH, ascii_upper_is_ascii.
Qed.

(** On a code of ASCII characters every runtime lowercases letter by
    letter. *)
Lemma normalize_code_ascii {R : Runtime} (code : pystr) :
  forallb is_ascii code = true →
  normalize_code code
  = map ascii_lower
      (rstrip_chars (λ c, (c =? SLASH)%N) (multispace_sub (strip code))).
Proof.
  intros Hc. unfold normalize_code.
  by rewrite str_lower_ascii by by apply normalize_steps_ascii.
Qed.

Lemma normalize_code_ascii_runtime {R : Runtime} (code : pystr) :
  forallb is_ascii code = true →
  normalize_code code = normalize_code (R := ascii_runtime) code.
Proof.
  intros Hc. by rewrite (normalize_code_ascii code), (normalize_code_ascii (R := ascii_runtime) code).
Qed.

(** *** Collapsing and the separator *)

Lemma multispace_sub_from_false_nonempty s :
  s ≠ [] → multispace_sub_from false s ≠ [].
Proof. destruct s as [|c s]; [done|]. intros _. simpl. by destruct (is_space c). Qed.

Lemma multispace_sub_from_length b s :
  length (multispace_sub_from b s) ≤ length s.
Proof.
  revert b. induction s as [|c s IH]; intros b; simpl; [done|].
  destruct (is_space c), b; simpl;
    try (pose proof (IH true)); try (pose proof (IH false)); lia.
Qed.

Lemma multispace_sub_from_idemp s :
  (∀ b, multispace_sub_from false (multispace_sub_from b s)
        = multispace_sub_from b s)
  ∧ multispace_sub_from true (multispace_sub_from true s)
    = multispace_sub_from true s.
Proof.
  induction s as [|c s [IH1 IH2]]; [done|]. split.
  - intros b. simpl. destruct (is_space c) eqn:Hc.
    + destruct b; [apply IH1|]. simpl.
      replace (is_space SPACE) with true by reflexivity. by rewrite IH2.
    + simpl. by rewrite Hc, IH1.
  - simpl. destruct (is_space c) eqn:Hc; [done|]. simpl. by rewrite Hc, IH1.
Qed.

Lemma slash_not_space (c : N) : (c =? SLASH)%N = true → is_space c = false.
Proof. intros ->%N.eqb_eq. reflexivity. Qed.

(** Trailing separators can be stripped before or after collapsing. *)
Lemma rstrip_slash_multispace_sub_from b s :
  rstrip_chars (λ c, (c =? SLASH)%N) (multispace_sub_from b s)
  = multispace_sub_from b (rstrip_chars (λ c, (c =? SLASH)%N) s).
Proof.
  revert b. induction s as [|c s IH]; intros b; [done|].
  destruct (c =? SLASH)%N eqn:Hsl.
  - pose proof (slash_not_space c Hsl) as Hsp.
    cbn [multispace_sub_from]. rewrite Hsp.
    destruct (decide (rstrip_chars (λ c, (c =? SLASH)%N) s = [])) as [Hr|Hne].
    + rewrite (rstrip_chars_cons_nil _ c s) by done.
      rewrite (rstrip_chars_cons_nil _ c (multispace_sub_from false s));
        [done|done|]. by rewrite IH, Hr.
    + rewrite (rstrip_chars_cons_ne _ c s) by done.
      rewrite (rstrip_chars_cons_ne _ c (multispace_sub_from false s)).
      * rewrite IH. cbn [multispace_sub_from]. by rewrite Hsp.
      * rewrite IH. by apply multispace_sub_from_false_nonempty.
  - rewrite (rstrip_chars_cons _ c s) by done.
    cbn [multispace_sub_from]. destruct (is_space c), b.
    + apply IH.
    + rewrite rstrip_chars_cons by reflexivity. by rewrite IH.
    + rewrite rstrip_chars_cons by done. by rewrite IH.
    + rewrite rstrip_chars_cons by done. by rewrite IH.
Qed.

Lemma rstrip_chars_lt p s c :
  last s = Some c → p c = true →
  length (rstrip_chars p s) < length s.
Proof.
  intros [s' ->]%last_Some Hc. rewrite rstrip_chars_snoc, Hc, length_app.
  pose proof (rstrip_chars_length p s'). simpl. lia.
Qed.

(** The string that [normalize_code] lowercases does not start with
    whitespace, is already collapsed and carries no trailing separator. *)
Lemma normalize_steps_shape (code : pystr) :
  let t := rstrip_chars (λ c, (c =? SLASH)%N) (multispace_sub (strip code)) in
  (∀ c, head t = Some c → is_space c = false)
  ∧ multispace_sub t = t
  ∧ rstrip_chars (λ c, (c =? SLASH)%N) t = t.
Proof.
  intros t. split; [|split].
  - subst t. unfold multispace_sub.
    rewrite rstrip_slash_multispace_sub_from.
    destruct (rstrip_chars _ (strip code)) as [|x v] eqn:Hv; [done|].
    apply rstrip_chars_head in Hv.
    destruct (strip code) as [|y u] eqn:Hu; [done|]. injection Hv as ->.
    apply strip_head in Hu. simpl. rewrite Hu. by intros c [= <-].
  - subst t. unfold multispace_sub.
    rewrite rstrip_slash_multispace_sub_from.
    apply multispace_sub_from_idemp.
  - apply rstrip_chars_idemp.
Qed.

(** *** Replacements that keep the layout *)









Section SameLayout.
Variable q : N → bool.
Hypothesis q_layout : ∀ c, q c = true → layout_char c = true.






End SameLayout.





(** *** A conversion that acts character by character *)

Section CharWise.
Variable g : N → pystr.
Hypothesis g_layout :
  ∀ c, if layout_char c then g c = [c]
       else g c ≠ [] ∧ forallb (λ x, negb (layout_char x)) (g c) = true.










End CharWise.

(** *** The laws at work *)

Section Laws.
Context {R : Runtime} {L : CaseLaws R}.









End Laws.

(** The two cut-down runtimes obey the laws. *)
Lemma same_layout_map (f : N → N) (s : pystr) :
  (∀ c, layout_char c = true → f c = c) →
  (∀ c, layout_char c = false → layout_char (f c) = false) →
  same_layout s (map f s).
Proof.
  intros Hk Hs. induction s as [|c s IH]; [constructor|]. simpl.
  destruct (layout_char c) eqn:Hc.
  - rewrite Hk by done. by constructor.
  - change (f c :: map f s) with ([f c] ++ map f s).
    constructor; [done|done| |done]. simpl. by rewrite Hs.
Qed.

Lemma layout_char_ascii_lower c : layout_char (ascii_lower c) = layout_char c.
Proof. unfold layout_char. by rewrite ascii_lower_space, ascii_lower_slash. Qed.

Lemma layout_char_ascii_upper c : layout_char (ascii_upper c) = layout_char c.
Proof. unfold layout_char. by rewrite ascii_upper_space, ascii_upper_slash. Qed.

Lemma layout_char_ascii_lower_fix c :
  layout_char c = true → ascii_lower c = c.
Proof.
  intros Hc. destruct (ascii_lower_cases c) as [[Hr _] | [_ E]]; [|done].
  unfold layout_char in Hc. rewrite is_space_false in Hc by lia.
  apply N.eqb_eq in Hc. unfold SLASH in Hc. lia.
Qed.

Lemma layout_char_ascii_upper_fix c :
  layout_char c = true → ascii_upper c = c.
Proof.
  intros Hc. destruct (ascii_upper_cases c) as [[Hr _] | [_ E]]; [|done].
  unfold layout_char in Hc. rewrite is_space_false in Hc by lia.
  apply N.eqb_eq in Hc. unfold SLASH in Hc. lia.
Qed.


Lemma same_layout_upper_sharp_s (s : pystr) :
  same_layout s (flat_map upper_sharp_s s).
Proof.
  induction s as [|c s IH]; [constructor|]. simpl. unfold upper_sharp_s at 1.
  destruct (N.eqb_spec c 223) as [->|Hc].
  - by constructor.
  - destruct (layout_char c) eqn:Hl.
    + rewrite layout_char_ascii_upper_fix by done. by constructor.
    + constructor; [done|done| |done]. simpl.
      by rewrite layout_char_ascii_upper, Hl.
Qed.

Lemma sharp_s_case_laws : CaseLaws sharp_s_runtime.
Proof.
  split; simpl.
  - intros s. rewrite map_map. apply map_ext, ascii_lower_idemp.
  - intros s. apply same_layout_map; [apply layout_char_ascii_lower_fix|].
    intros c. by rewrite layout_char_ascii_lower.
  - intros s1 s2. apply flat_map_app.
  - apply same_layout_upper_sharp_s.
  - intros s Hs. split; [done|].
    induction s as [|c s IH]; [done|]. simpl in Hs |- *.
    apply andb_true_iff in Hs as [Hc Hs]. rewrite IH by done.
    unfold upper_sharp_s. destruct (N.eqb_spec c 223) as [->|_]; done.
Qed.

(** Whatever the runtime: the space before a stripped separator stays, and
    two trailing separators both go. *)
Lemma normalize_code_samples {R : Runtime} :
  normalize_code (py "a /") = py "a "
  ∧ normalize_code (py "a ") = py "a"
  ∧ normalize_code (py "a//") = py "a".
Proof.
  rewrite (normalize_code_ascii_runtime (py "a /")),
    (normalize_code_ascii_runtime (py "a ")),
    (normalize_code_ascii_runtime (py "a//")) by reflexivity.
  by repeat split.
Qed.



(** ** Reordering *)

Section Reorder.
Context {R : Runtime}.

Lemma build_mapping_fold (rows : list (pystr * pystr))
    (m : gmap pystr (pystr * pystr)) (key : pystr) :
  fold_left
    (λ mapping row,
       let orig_code := row.1 in
       let paragraph := row.2 in
       let key := normalize_code orig_code in
       match mapping !! key with
       | None => <[key := (orig_code, paragraph)]> mapping
       | Some _ => mapping
       end) rows m !! key
  = match m !! key with
    | Some row => Some row
    | None => head (filter (λ row, normalize_code row.1 = key) rows)
    end.
Proof.
  revert m. induction rows as [|[code para] rows IH]; intros m; simpl.
  - by destruct (m !! key).
  - rewrite IH. destruct (m !! normalize_code code) as [old|] eqn:Hold.
    + destruct (m !! key) as [row|] eqn:Hkey; [done|].
      rewrite filter_cons_False; [done|]. simpl. congruence.
    + destruct (decide (normalize_code code = key)) as [<-|Hne].
      * rewrite lookup_insert_eq, Hold. by rewrite filter_cons_True.
      * rewrite lookup_insert_ne by done.
        destruct (m !! key); [done|]. by rewrite filter_cons_False.
Qed.

Lemma build_mapping_lookup (rows : list (pystr * pystr)) (key : pystr) :
  build_mapping rows !! key
  = head (filter (λ row, normalize_code row.1 = key) rows).
Proof. unfold build_mapping. by rewrite build_mapping_fold, lookup_empty. Qed.

Lemma reorder_fold (mapping : gmap pystr (pystr * pystr))
    (desired_order : list pystr) (output_rows : list (pystr * pystr))
    (missing : list pystr) :
  fold_left
    (λ acc code,
       let '(output_rows, missing) := acc in
       let key := normalize_code code in
       match mapping !! key with
       | Some row => (output_rows ++ [row], missing)
       | None => (output_rows, missing ++ [code])
       end) desired_order (output_rows, missing)
  = (output_rows ++ omap (λ code, mapping !! normalize_code code) desired_order,
     missing
     ++ filter (λ code, mapping !! normalize_code code = None) desired_order).
Proof.
  revert output_rows missing.
  induction desired_order as [|code order IH]; intros output_rows missing; simpl.
  - by rewrite !app_nil_r.
  - destruct (mapping !! normalize_code code) as [row|] eqn:Hrow; rewrite IH.
    + rewrite filter_cons_False by by rewrite Hrow.
      by rewrite <- app_assoc.
    + rewrite filter_cons_True by done. by rewrite <- app_assoc.
Qed.

Lemma reorder_spec (mapping : gmap pystr (pystr * pystr))
    (desired_order : list pystr) :
  reorder mapping desired_order
  = (omap (λ code, mapping !! normalize_code code) desired_order,
     filter (λ code, mapping !! normalize_code code = None) desired_order).
Proof. unfold reorder. by rewrite reorder_fold. Qed.

(** C2.  The mapping holds, under each normalised key, the first row of the
    table whose sample code normalises to it; a row that comes after another
    one with the same key is dropped, and the row emitted for a canonical
    code with that key is the first one. *)
Theorem first_occurrence_wins (rows : list (pystr * pystr)) :
  (∀ key,
     build_mapping rows !! key
     = head (filter (λ row, normalize_code row.1 = key) rows))
  ∧ (∀ before row after code,
       rows = before ++ row :: after →
       Forall (λ r, normalize_code r.1 ≠ normalize_code row.1) before →
       normalize_code code = normalize_code row.1 →
       build_mapping rows !! normalize_code row.1 = Some row
       ∧ reorder (build_mapping rows) [code] = ([row], [])).
Proof.
  split; [apply build_mapping_lookup|].
  intros before row after code -> Hbefore Hcode.
  assert (Hrow : build_mapping (before ++ row :: after)
                   !! normalize_code row.1 = Some row).
  { rewrite build_mapping_lookup, filter_app.
    replace (filter _ before) with (@nil (pystr * pystr)).
    - by rewrite filter_cons_True.
    - symmetry. induction Hbefore as [|r before Hr _ IH]; [done|].
      by rewrite filter_cons_False. }
  split; [done|]. rewrite reorder_spec. simpl.
  rewrite Hcode, Hrow. simpl. by rewrite filter_cons_False, filter_nil by by rewrite Hcode, Hrow.
Qed.

(** C1.  [rearrange_file] emits, for each canonical code in list order whose
    normalised form is a key of the mapping, the stored pair, a row of the
    merged table with its sample code as written there; the canonical codes
    whose normalised form is no key make up the missing list, in order.  For
    the canonical order A, "b ", C and the rows (a, x), (B, y) the output is
    (a, x), (B, y) and the missing list is C. *)
Theorem reorder_emits_stored_rows (rows : list (pystr * pystr))
    (desired_order : list pystr) :
  let mapping := build_mapping rows in
  reorder mapping desired_order
  = (omap (λ code, mapping !! normalize_code code) desired_order,
     filter (λ code, mapping !! normalize_code code = None) desired_order)
  ∧ (∀ key row, mapping !! key = Some row →
       row ∈ rows ∧ normalize_code row.1 = key)
  ∧ reorder (build_mapping [(py "a", py "x"); (py "B", py "y")])
      [py "A"; py "b "; py "C"]
    = ([(py "a", py "x"); (py "B", py "y")], [py "C"]).
Proof.
  intros mapping. split; [apply reorder_spec|]. split.
  - intros key row. subst mapping. rewrite build_mapping_lookup.
    intros Hrow%head_Some_elem_of. by apply list_elem_of_filter in Hrow as [? ?].
  - assert (Hkey : ∀ code key,
              forallb is_ascii code = true →
              normalize_code (R := ascii_runtime) code = key →
              normalize_code code = key).
    { intros code key Hc <-. by apply normalize_code_ascii_runtime. }
    rewrite reorder_spec. unfold build_mapping.
    cbn [fold_left omap list_omap filter list_filter fst snd].
    rewrite (Hkey (py "a") (py "a")), (Hkey (py "B") (py "b")),
      (Hkey (py "A") (py "a")), (Hkey (py "b ") (py "b")),
      (Hkey (py "C") (py "c")) by reflexivity.
    vm_compute. reflexivity.
Qed.

End Reorder.

Lemma first_occurrence_wins_witness :
  build_mapping (R := ascii_runtime)
    [(py "a", py "x"); (py "B", py "y"); (py " A/", py "z")]
    !! normalize_code (R := ascii_runtime) (py " A/")
  = Some (py "a", py "x").
Proof.
  refine (proj1 (proj2 (first_occurrence_wins (R := ascii_runtime)
    [(py "a", py "x"); (py "B", py "y"); (py " A/", py "z")])
    [] (py "a", py "x") [(py "B", py "y"); (py " A/", py "z")] (py "A")
    eq_refl _ eq_refl)).
  constructor.
Defined.

Lemma reorder_emits_stored_rows_witness :
  (py "B", py "y") ∈ [(py "a", py "x"); (py "B", py "y")]
  ∧ normalize_code (R := ascii_runtime) (py "B") = py "b".
Proof.
  apply (proj1 (proj2 (reorder_emits_stored_rows (R := ascii_runtime)
    [(py "a", py "x"); (py "B", py "y")] [])) (py "b") (py "B", py "y")).
  vm_compute. reflexivity.
Defined.

(** ** The retry controller *)

Section Backoff.
Context {W : Type}.
Variable call : M W pystr.

Lemma backoff_from_retry retries es :
  ∀ todo attempt w w' log,
    fails_in_a_row call es w w' →
    attempt + length es < retries →
    length es ≤ todo →
    backoff_from call retries todo attempt (w, log)
    = backoff_from call retries (todo - length es) (attempt + length es)
        (w', log ++ retry_log retries attempt es).
Proof.
  induction es as [|e es IH]; intros todo attempt w w' log Hfail Hlt Htodo.
  - inversion Hfail; subst. simpl.
    by rewrite Nat.sub_0_r, Nat.add_0_r, app_nil_r.
  - inversion Hfail as [|? ? ? w1 ? Hcall Hrest]; subst. simpl in Hlt, Htodo.
    destruct todo as [|todo]; [lia|]. simpl. rewrite Hcall.
    destruct (Nat.eqb_spec attempt (retries - 1)) as [Heq|_]; [lia|].
    rewrite (IH todo (S attempt) w1 w') by (done || lia).
    replace (S attempt + length es) with (attempt + S (length es)) by lia.
    by rewrite <- app_assoc.
Qed.

Lemma backoff_loop_success retries es w0 wk v w' :
  length es < retries →
  fails_in_a_row call es w0 wk →
  call wk = (Ok v, w') →
  backoff_loop call retries (w0, [])
  = (Ok v, (w', retry_log retries 0 es ++ [Invoked])).
Proof.
  intros Hlt Hfail Hcall. unfold backoff_loop.
  rewrite (backoff_from_retry retries es retries 0 w0 wk) by (done || lia).
  destruct (retries - length es) as [|todo] eqn:Htodo; [lia|].
  simpl. by rewrite Hcall.
Qed.

Lemma backoff_loop_exhausted retries es w0 wk e w' :
  S (length es) = retries →
  fails_in_a_row call es w0 wk →
  call wk = (Raise e, w') →
  backoff_loop call retries (w0, [])
  = (Raise e, (w', retry_log retries 0 es ++ [Invoked])).
Proof.
  intros Hlen Hfail Hcall. unfold backoff_loop.
  rewrite (backoff_from_retry retries es retries 0 w0 wk) by (done || lia).
  destruct (retries - length es) as [|todo] eqn:Htodo; [lia|].
  simpl. rewrite Hcall.
  by destruct (Nat.eqb_spec (length es) (retries - 1)) as [_|Hne]; [|lia].
Qed.

End Backoff.

Lemma invocations_app log1 log2 :
  invocations (log1 ++ log2) = invocations log1 + invocations log2.
Proof. unfold invocations. by rewrite List.filter_app, length_app. Qed.

Lemma sleeps_app log1 log2 : sleeps (log1 ++ log2) = sleeps log1 ++ sleeps log2.
Proof. unfold sleeps. apply omap_app. Qed.

Lemma invocations_retry_log retries attempt es :
  invocations (retry_log retries attempt es) = length es.
Proof.
  revert attempt. induction es as [|e es IH]; intros attempt; [done|].
  cbn [retry_log]. rewrite invocations_app, IH. reflexivity.
Qed.

Lemma sleeps_retry_log retries attempt es :
  sleeps (retry_log retries attempt es)
  = map (λ i, 2 ^ i) (seq attempt (length es)).
Proof.
  revert attempt. induction es as [|e es IH]; intros attempt; [done|].
  cbn [retry_log]. rewrite sleeps_app, IH. reflexivity.
Qed.

Lemma sum_powers_of_two k attempt :
  sum_list (map (λ i, 2 ^ i) (seq attempt k)) + 2 ^ attempt = 2 ^ (attempt + k).
Proof.
  revert attempt. induction k as [|k IH]; intros attempt; simpl.
  - by rewrite Nat.add_0_r.
  - specialize (IH (S attempt)). simpl in IH.
    replace (attempt + S k) with (S (attempt + k)) by lia. simpl. lia.
Qed.

(** C3.  With the five attempts of [backoff_call]: a call that fails [k < 5]
    times and then succeeds is invoked [k + 1] times, its value is returned,
    and the controller sleeps [2 ^ i] seconds after failed attempt [i],
    [2 ^ k - 1] seconds in all; a call that fails five times is invoked five
    times, the sleeps are 1, 2, 4 and 8 seconds, none follows the last
    attempt, and the exception of the fifth attempt is raised as it is. *)
Theorem backoff_retry_controller {W} (call : M W pystr) :
  (∀ es w0 wk v w',
     length es < DEFAULT_RETRIES →
     fails_in_a_row call es w0 wk →
     call wk = (Ok v, w') →
     let log := retry_log DEFAULT_RETRIES 0 es ++ [Invoked] in
     backoff_loop call DEFAULT_RETRIES (w0, []) = (Ok v, (w', log))
     ∧ invocations log = length es + 1
     ∧ sleeps log = map (λ i, 2 ^ i) (seq 0 (length es))
     ∧ sum_list (sleeps log) = 2 ^ length es - 1)
  ∧ (∀ es w0 w4 e w5,
       length es = 4 →
       fails_in_a_row call es w0 w4 →
       call w4 = (Raise e, w5) →
       let log := retry_log DEFAULT_RETRIES 0 es ++ [Invoked] in
       backoff_loop call DEFAULT_RETRIES (w0, []) = (Raise e, (w5, log))
       ∧ invocations log = 5
       ∧ sleeps log = [1; 2; 4; 8]
       ∧ last log = Some Invoked).
Proof.
  assert (Hinv : ∀ es, invocations (retry_log DEFAULT_RETRIES 0 es ++ [Invoked])
                       = length es + 1).
  { intros es. by rewrite invocations_app, invocations_retry_log. }
  assert (Hsl : ∀ es, sleeps (retry_log DEFAULT_RETRIES 0 es ++ [Invoked])
                      = map (λ i, 2 ^ i) (seq 0 (length es))).
  { intros es. rewrite sleeps_app, sleeps_retry_log. apply app_nil_r. }
  split.
  - intros es w0 wk v w' Hlt Hfail Hcall log. subst log.
    split; [by apply (backoff_loop_success call _ es w0 wk)|].
    split; [apply Hinv|]. split; [apply Hsl|].
    rewrite Hsl. pose proof (sum_powers_of_two (length es) 0) as Hsum.
    simpl in Hsum. lia.
  - intros es w0 w4 e w5 Hlen Hfail Hcall log. subst log.
    split; [apply (backoff_loop_exhausted call _ es w0 w4); by rewrite ?Hlen|].
    split; [by rewrite Hinv, Hlen|]. split; [by rewrite Hsl, Hlen|].
    apply last_snoc.
Qed.

Lemma backoff_retry_controller_witness :
  backoff_loop flaky_call DEFAULT_RETRIES (0, [])
  = (Ok (py "merged"),
     (3, [Invoked; Printed 1 5 1 (SdkError (py "timeout")); Slept 1;
          Invoked; Printed 2 5 2 (SdkError (py "timeout")); Slept 2;
          Invoked]))
  ∧ fst (backoff_loop failing_call DEFAULT_RETRIES (0, []))
    = Raise (SdkError (py "timeout")).
Proof.
  split.
  - refine (proj1 (proj1 (backoff_retry_controller flaky_call)
      [SdkError (py "timeout"); SdkError (py "timeout")] 0 2 (py "merged") 3
      _ _ eq_refl)).
    + vm_compute. lia.
    + apply (fails_cons flaky_call _ _ 0 1 2 eq_refl).
      apply (fails_cons flaky_call _ _ 1 2 2 eq_refl).
      apply fails_nil.
  - refine (f_equal fst (proj1 (proj2 (backoff_retry_controller failing_call)
      (replicate 4 (SdkError (py "timeout"))) 0 4 (SdkError (py "timeout")) 5
      eq_refl _ eq_refl))).
    apply (fails_cons failing_call _ _ 0 1 4 eq_refl).
    apply (fails_cons failing_call _ _ 1 2 4 eq_refl).
    apply (fails_cons failing_call _ _ 2 3 4 eq_refl).
    apply (fails_cons failing_call _ _ 3 4 4 eq_refl).
    apply fails_nil.
Defined.

(** ** The merge client *)

(** C9.  For the empty sentence list [call_openai_merge] returns the empty
    string and sends no request, whatever the environment holds: the
    credential is not looked at.  Through the retry controller it is one
    invocation and no sleep. *)
Theorem merge_empty_list_no_request (env : Env) (model : pystr)
    (sent : list request) (log : list ctl_event) :
  call_openai_merge env [] model sent = (Ok [], sent)
  ∧ backoff_call env [] model DEFAULT_RETRIES (sent, log)
    = (Ok [], (sent, log ++ [Invoked])).
Proof. split; reflexivity. Qed.

Lemma call_openai_merge_without_key env sentences model sent :
  sentences ≠ [] →
  OPENAI_API_KEY env = None ∨ OPENAI_API_KEY env = Some [] →
  call_openai_merge env sentences model sent = (Raise EnvironmentError, sent).
Proof.
  intros Hne Hkey. unfold call_openai_merge.
  destruct sentences as [|s0 rest]; [done|].
  by destruct Hkey as [-> | ->].
Qed.

(** C4, amended.  For a non-empty sentence list and no credential in the
    environment (unset or empty), every invocation of [call_openai_merge]
    raises the credential error before any request is sent; [backoff_call]
    treats it like any other exception: five invocations, sleeps of 1, 2, 4
    and 8 seconds, then the credential error, and no request at all. *)
Theorem missing_credential_is_retried (env : Env) (sentences : list pystr)
    (model : pystr) (sent : list request) :
  sentences ≠ [] →
  OPENAI_API_KEY env = None ∨ OPENAI_API_KEY env = Some [] →
  let log := retry_log DEFAULT_RETRIES 0 (replicate 4 EnvironmentError)
             ++ [Invoked] in
  call_openai_merge env sentences model sent = (Raise EnvironmentError, sent)
  ∧ backoff_call env sentences model DEFAULT_RETRIES (sent, [])
    = (Raise EnvironmentError, (sent, log))
  ∧ invocations log = 5
  ∧ sleeps log = [1; 2; 4; 8].
Proof.
  intros Hne Hkey log.
  pose proof (call_openai_merge_without_key env sentences model sent Hne Hkey)
    as Hcall.
  split; [done|]. split; [|by split].
  unfold backoff_call.
  apply (backoff_loop_exhausted _ _ (replicate 4 EnvironmentError) sent sent);
    [done| |done].
  repeat (eapply fails_cons; [exact Hcall|]). apply fails_nil.
Qed.

(** C4.  Without the credential the merge of one sentence is invoked five
    times and the controller sleeps four times before the credential error
    comes out: it is retried, not raised at once. *)
Lemma missing_credential_not_fail_fast :
  let run :=
    backoff_call env_without_key [py "soft"] (py "gpt-5.1") DEFAULT_RETRIES
      ([], []) in
  run.1 = Raise EnvironmentError
  ∧ run.2.1 = []
  ∧ invocations run.2.2 = 5
  ∧ sleeps run.2.2 = [1; 2; 4; 8]
  ∧ ¬ (invocations run.2.2 = 1 ∧ sleeps run.2.2 = []).
Proof. repeat split. intros [H _]. vm_compute in H. discriminate. Qed.

Lemma missing_credential_is_retried_witness :
  backoff_call env_without_key [py "soft"] (py "gpt-5.1") DEFAULT_RETRIES
    ([], [])
  = (Raise EnvironmentError,
     ([], retry_log DEFAULT_RETRIES 0 (replicate 4 EnvironmentError)
          ++ [Invoked])).
Proof.
  refine (proj1 (proj2 (missing_credential_is_retried env_without_key
    [py "soft"] (py "gpt-5.1") [] _ _))).
  - discriminate.
  - left. reflexivity.
Defined.

(** ** Column selection *)

Lemma has_column_column label df :
  has_column label df = true → is_Some (column label df).
Proof.
  unfold has_column, columns. intros Hc%bool_decide_eq_true.
  induction df as [|[l c] df IH]; simpl in *; [by apply elem_of_nil in Hc|].
  destruct (decide (l = label)) as [->|Hne]; [done|].
  apply IH. by apply elem_of_cons in Hc as [->|Hc].
Qed.

(** C10.  On a loaded table, whose column labels are distinct: when the
    labels include both [sample_code] and [gpt_paragraph], the columns so
    labelled are selected; otherwise, with at least two columns, the first
    column stands for [sample_code] and the second for [gpt_paragraph]; with
    fewer than two columns [ValueError] is raised and [rearrange_file] writes
    no output. *)
Theorem ensure_columns_selection {R : Runtime} (df : DataFrame) :
  NoDup (columns df) →
  (has_column SAMPLE_CODE df && has_column GPT_PARAGRAPH df = true →
   ∃ codes paragraphs,
     (SAMPLE_CODE, codes) ∈ df ∧ (GPT_PARAGRAPH, paragraphs) ∈ df
     ∧ ensure_columns df
       = Ok {| sample_code := codes; gpt_paragraph := paragraphs |})
  ∧ (has_column SAMPLE_CODE df && has_column GPT_PARAGRAPH df = false →
     ∀ l0 c0 l1 c1 rest, df = (l0, c0) :: (l1, c1) :: rest →
       ensure_columns df = Ok {| sample_code := c0; gpt_paragraph := c1 |})
  ∧ (length df < 2 →
     ensure_columns df = Raise ValueError
     ∧ ∀ desired_order,
         rearrange_file (Ok df) desired_order = (Raise ValueError, [PrintLoad])).
Proof.
  intros Hnodup. split; [|split].
  - intros Hboth. apply andb_true_iff in Hboth as [Hsc Hgp].
    destruct (has_column_column _ _ Hsc) as [codes Hcodes].
    destruct (has_column_column _ _ Hgp) as [paragraphs Hparagraphs].
    exists codes, paragraphs.
    assert (Hin : ∀ label cells, column label df = Some cells →
                    (label, cells) ∈ df).
    { clear. intros label cells. induction df as [|[l c] df IH]; simpl; [done|].
      destruct (decide (l = label)) as [->|_].
      - intros [= ->]. left.
      - intros H. right. by apply IH. }
    split; [by apply Hin|]. split; [by apply Hin|].
    unfold ensure_columns, select2. by rewrite Hsc, Hgp, Hcodes, Hparagraphs.
  - intros Hnot l0 c0 l1 c1 rest ->.
    unfold ensure_columns. rewrite Hnot. unfold select2. simpl.
    rewrite decide_True by done.
    apply NoDup_cons in Hnodup as [Hl0 _].
    rewrite decide_False; [by rewrite decide_True|].
    intros ->. apply Hl0. left.
  - intros Hlen.
    assert (Hens : ensure_columns df = Raise ValueError).
    { destruct df as [|[l0 c0] [|col1 rest]]; [done| |simpl in Hlen; lia].
      unfold ensure_columns, has_column.
      destruct (bool_decide (SAMPLE_CODE ∈ columns [(l0, c0)])) eqn:Hsc; [|done].
      destruct (bool_decide (GPT_PARAGRAPH ∈ columns [(l0, c0)])) eqn:Hgp; [|done].
      apply bool_decide_eq_true in Hsc, Hgp. simpl in Hsc, Hgp.
      apply list_elem_of_singleton in Hsc, Hgp. rewrite <- Hsc in Hgp.
      vm_compute in Hgp. discriminate. }
    split; [done|]. intros desired_order. unfold rearrange_file. by rewrite Hens.
Qed.

Lemma ensure_columns_selection_witness :
  ensure_columns [(py "code", [py "A-1"]); (py "text", [py "soft"])]
  = Ok {| sample_code := [py "A-1"]; gpt_paragraph := [py "soft"] |}
  ∧ ensure_columns [(py "code", [py "A-1"])] = Raise ValueError
  ∧ ∃ codes paragraphs,
      ensure_columns
        [(py "extra", [py "?"]); (GPT_PARAGRAPH, [py "soft"]);
         (SAMPLE_CODE, [py "A-1"])]
      = Ok {| sample_code := codes; gpt_paragraph := paragraphs |}.
Proof.
  split; [|split].
  - refine (proj1 (proj2 (ensure_columns_selection (R := ascii_runtime)
      [(py "code", [py "A-1"]); (py "text", [py "soft"])] _)) eq_refl
      _ _ _ _ _ eq_refl).
    apply (bool_decide_unpack (NoDup _)). vm_compute. exact I.
  - refine (proj1 (proj2 (proj2 (ensure_columns_selection (R := ascii_runtime)
      [(py "code", [py "A-1"])] _)) _)).
    + apply (bool_decide_unpack (NoDup _)). vm_compute. exact I.
    + simpl. lia.
  - destruct (proj1 (ensure_columns_selection (R := ascii_runtime)
      [(py "extra", [py "?"]); (GPT_PARAGRAPH, [py "soft"]);
       (SAMPLE_CODE, [py "A-1"])]
      ltac:(apply (bool_decide_unpack (NoDup _)); vm_compute; exact I))
      eq_refl)
      as (codes & paragraphs & _ & _ & Hens).
    by exists codes, paragraphs.
Defined.

(** * Further properties of the two scripts *)

(** ** The loader *)

Lemma read_csv_from_Ok {T} (read_csv : pystr → parsed T) encodings last_err df :
  (read_csv_from read_csv encodings last_err).1 = Ok df →
  ∃ before enc after,
    encodings = before ++ enc :: after
    ∧ (read_csv_from read_csv encodings last_err).2 = before ++ [enc]
    ∧ read_csv enc = Parsed df
    ∧ Forall (λ e, ∃ text, read_csv e = ParseError text) before.
Proof.
  revert last_err. induction encodings as [|enc0 rest IH]; intros last_err; simpl.
  - discriminate.
  - destruct (read_csv enc0) as [df0|text] eqn:Hread.
    + simpl. intros [= ->]. by exists [], enc0, rest.
    + specialize (IH (Some text)).
      destruct (read_csv_from read_csv rest (Some text)) as [r tried]. simpl in *.
      intros Hr. destruct (IH Hr) as (before & enc & after & -> & -> & Henc & Hbefore).
      exists (enc0 :: before), enc, after. repeat split; [done|].
      constructor; [by exists text | done].
Qed.

Lemma read_csv_from_Raise {T} (read_csv : pystr → parsed T) encodings last_err e :
  (read_csv_from read_csv encodings last_err).1 = Raise e →
  (read_csv_from read_csv encodings last_err).2 = encodings
  ∧ Forall (λ enc, ∃ text, read_csv enc = ParseError text) encodings
  ∧ match last encodings with
    | Some enc => ∃ text, read_csv enc = ParseError text ∧ e = RuntimeError text
    | None => e = RuntimeError (default (py "None") last_err)
    end.
Proof.
  revert last_err. induction encodings as [|enc0 rest IH]; intros last_err; simpl.
  - by intros [= <-].
  - destruct (read_csv enc0) as [df0|text] eqn:Hread; [discriminate|].
    specialize (IH (Some text)).
    destruct (read_csv_from read_csv rest (Some text)) as [r tried]. simpl in *.
    intros Hr. destruct (IH Hr) as (-> & Hall & Hlast).
    split; [done|]. split; [constructor; [by exists text | done]|].
    destruct rest as [|enc1 rest'].
    + exists text. split; [done|]. simpl in Hlast. by rewrite Hlast.
    + rewrite last_cons_cons.
      destruct (last (enc1 :: rest')) eqn:Hl; [done|].
      by apply last_None in Hl.
Qed.

(** X1.  [read_csv_smart] returns the table of the first of utf-8-sig,
    utf-8, cp949 that parses the file, trying an encoding only after the
    ones before it failed; it raises exactly when all three fail, and then
    it is a [RuntimeError] with the text of the cp949 error. *)
Theorem read_csv_smart_first_success {T} (read_csv : pystr → parsed T) :
  (∀ df, (read_csv_smart read_csv).1 = Ok df →
     ∃ before enc after,
       encodings_to_try = before ++ enc :: after
       ∧ (read_csv_smart read_csv).2 = before ++ [enc]
       ∧ read_csv enc = Parsed df
       ∧ Forall (λ e, ∃ text, read_csv e = ParseError text) before)
  ∧ (∀ e, (read_csv_smart read_csv).1 = Raise e →
       (read_csv_smart read_csv).2 = encodings_to_try
       ∧ Forall (λ enc, ∃ text, read_csv enc = ParseError text) encodings_to_try
       ∧ ∃ text, read_csv (py "cp949") = ParseError text ∧ e = RuntimeError text)
  ∧ ((∃ enc df, enc ∈ encodings_to_try ∧ read_csv enc = Parsed df) →
     ∃ df, (read_csv_smart read_csv).1 = Ok df).
Proof.
  split; [|split].
  - intros df. apply read_csv_from_Ok.
  - intros e He. by apply read_csv_from_Raise in He.
  - intros (enc & df & Henc & Hread).
    destruct (read_csv_smart read_csv).1 as [df'|e] eqn:Hr; [by exists df'|].
    apply read_csv_from_Raise in Hr as (_ & Hall & _).
    rewrite Forall_forall in Hall. destruct (Hall enc Henc) as [text Htext].
    congruence.
Qed.

Lemma read_csv_smart_first_success_witness :
  ∃ df,
    (read_csv_smart
       (λ enc, if decide (enc = py "cp949")
               then Parsed [(py "A-1", [Some (py "soft")])]
               else ParseError (py "invalid start byte"))).1
    = Ok df.
Proof.
  apply (proj2 (proj2 (read_csv_smart_first_success _))).
  exists (py "cp949"), [(py "A-1", [Some (py "soft")])].
  split; [|reflexivity].
  apply (bool_decide_unpack (_ ∈ _)). vm_compute. exact I.
Defined.

(** ** The header pattern as a scan *)

Lemma re_star_Some p s : re_star p s Some = Some (lstrip_chars p s).
Proof.
  induction s as [|c s IH]; simpl; [done|].
  destruct (p c); [by rewrite IH | done].
Qed.

(** The greedy star never has to give a character back when the pattern
    that follows cannot start with a character of the class. *)
Lemma re_star_greedy p s k :
  (∀ c s', p c = true → k (c :: s') = None) →
  re_star p s k = k (lstrip_chars p s).
Proof.
  intros Hk. induction s as [|c s IH]; simpl; [done|].
  destruct (p c) eqn:Hc; [|done]. rewrite IH.
  destruct (k (lstrip_chars p s)) eqn:Hrest; [done|]. by apply Hk.
Qed.

Lemma ascii_digit_spec (c : N) : ascii_digit c = true ↔ (48 ≤ c ≤ 57)%N.
Proof. apply in_range_spec. Qed.

Lemma space_not_digit (c : N) : is_space c = true → ascii_digit c = false.
Proof.
  intros Hsp. destruct (ascii_digit c) eqn:Hd; [|done].
  apply ascii_digit_spec in Hd. rewrite is_space_false in Hsp by lia. done.
Qed.

Lemma header_prefix_match_ascii_runtime {R : Runtime} (h : pystr) :
  forallb is_ascii h = true →
  header_prefix_match h = header_prefix_match (R := ascii_runtime) h.
Proof.
  intros Hh. unfold header_prefix_match.
  apply re_star_ext; [done| |done].
  intros [|c s1] Hs1; simpl; [done|]. simpl in Hs1.
  apply andb_true_iff in Hs1 as [Hc Hs1].
  rewrite (is_decimal_ascii c Hc). destruct (ascii_digit c); [|done].
  apply re_star_ext; [apply is_decimal_ascii | done | done].
Qed.

Lemma header_prefix_match_scan_ascii_runtime (h : pystr) :
  header_prefix_match (R := ascii_runtime) h = scan_header_prefix h.
Proof.
  unfold header_prefix_match, scan_header_prefix.
  rewrite re_star_greedy.
  2:{ intros c s' Hc. simpl. by rewrite (space_not_digit c Hc). }
  destruct (lstrip_chars is_space h) as [|d s1]; [done|].
  cbn [re_plus is_decimal ascii_runtime lstrip_chars].
  destruct (ascii_digit d) eqn:Hd; [|done].
  rewrite re_star_greedy.
  2:{ intros c s' Hc. simpl. apply ascii_digit_spec in Hc.
      replace (c =? DOT)%N with false; [done|].
      symmetry. apply N.eqb_neq. unfold DOT. lia. }
  destruct (lstrip_chars ascii_digit s1) as [|c s3]; [done|].
  simpl. destruct (c =? DOT)%N; [apply re_star_Some | done].
Qed.

(** X2.  On a header of ASCII characters the pattern of [clean_header]
    matches exactly what one scan from the left finds: leading whitespace,
    the whole run of digits (one at least), a dot right after it, and the
    whitespace after the dot.  The cleaned header is the trimmed rest, and
    the trimmed header itself when the digits or the dot are missing. *)
Theorem clean_header_scan {R : Runtime} (h : pystr) :
  forallb is_ascii h = true →
  header_prefix_match h = scan_header_prefix h
  ∧ clean_header (Some h) = strip (default h (scan_header_prefix h)).
Proof.
  intros Hh.
  assert (Hm : header_prefix_match h = scan_header_prefix h).
  { by rewrite header_prefix_match_ascii_runtime,
      header_prefix_match_scan_ascii_runtime. }
  split; [done|]. simpl. unfold header_prefix_sub. rewrite Hm.
  by destruct (scan_header_prefix h).
Qed.

Lemma clean_header_scan_witness :
  clean_header (R := ascii_runtime) (Some (py " 12.  NSF-299QT "))
  = strip (default (py " 12.  NSF-299QT ")
             (scan_header_prefix (py " 12.  NSF-299QT "))).
Proof.
  apply (clean_header_scan (R := ascii_runtime) (py " 12.  NSF-299QT ")).
  reflexivity.
Defined.

(** ** Sentence collection, composed *)

Lemma collect_sentences_filter (series : list (option pystr)) :
  collect_sentences series
  = filter (λ t, t ≠ []) (strip <$> omap id series).
Proof. unfold collect_sentences, dropna. by rewrite collect_sentences_fold. Qed.

(** X3.  The sentences of a column are the sentences of its upper rows
    followed by those of its lower rows, and collecting again from the
    collected sentences returns them unchanged. *)
Theorem collect_sentences_app_stable (rows1 rows2 : list (option pystr)) :
  collect_sentences (rows1 ++ rows2)
  = collect_sentences rows1 ++ collect_sentences rows2
  ∧ collect_sentences (Some <$> collect_sentences rows1)
    = collect_sentences rows1.
Proof.
  split.
  - by rewrite !collect_sentences_filter, omap_app, fmap_app, filter_app.
  - rewrite (collect_sentences_filter (Some <$> _)).
    replace (omap id (Some <$> collect_sentences rows1))
      with (collect_sentences rows1).
    2:{ induction (collect_sentences rows1) as [|t l IH]; [done|].
        simpl. by f_equal. }
    rewrite collect_sentences_filter.
    induction (omap id rows1) as [|v vs IH]; [done|].
    rewrite fmap_cons. destruct (decide (strip v = [])) as [Hv|Hv].
    + by rewrite filter_cons_False by (intros H; by apply H).
    + rewrite filter_cons_True by done.
      rewrite fmap_cons, strip_idemp, filter_cons_True by done. by rewrite IH.
Qed.

(** ** One invocation of the merge call *)

(** The runs of [call_openai_merge], case by case. *)
Lemma call_openai_merge_cases env sentences model sent :
  let chat_req := ChatCompletionsCreate model (user_content_of sentences) in
  let resp_req := ResponsesCreate model (user_content_of sentences) in
  let run := call_openai_merge env sentences model sent in
  (sentences = [] ∧ run = (Ok [], sent))
  ∨ (sentences ≠ [] ∧ run = (Raise EnvironmentError, sent))
  ∨ (sentences ≠ [] ∧ run = (Raise ImportError, sent))
  ∨ (sentences ≠ []
     ∧ (∃ choices, chat_completions env sent model (user_content_of sentences)
                   = Returned choices)
     ∧ ∃ v, strip v = v ∧ run = (Ok v, sent ++ [chat_req]))
  ∨ (sentences ≠ []
     ∧ (∃ msg, chat_completions env sent model (user_content_of sentences)
               = Failed msg)
     ∧ ((∃ v, strip v = v ∧ run = (Ok v, (sent ++ [chat_req]) ++ [resp_req]))
        ∨ (∃ msg, responses env (sent ++ [chat_req]) model
                    (user_content_of sentences) = Failed msg
                  ∧ run = (Raise (RuntimeError msg),
                           (sent ++ [chat_req]) ++ [resp_req])))).
Proof.
  intros chat_req resp_req run. subst run chat_req resp_req.
  destruct sentences as [|s0 rest]; [by left|]. right.
  unfold call_openai_merge.
  fold (user_content_of (s0 :: rest)).
  change (prompt_header ++ list_heading
          ++ join [NEWLINE] (map (λ s, py "- " ++ s) (s0 :: rest)))
    with (user_content_of (s0 :: rest)).
  generalize (user_content_of (s0 :: rest)). intros uc.
  destruct (OPENAI_API_KEY env) as [[|k0 key]|]; [by left| |by left].
  right. destruct (openai_installed env); [|by left]. right.
  unfold try_except, bind, chat_completions_create, responses_create, ret, raise.
  destruct (chat_completions env sent model uc) as [choices|msg] eqn:Hchat.
  - left. split; [done|]. split; [by exists choices|].
    eexists. split; [|reflexivity]. apply strip_idemp.
  - right. split; [done|]. split; [by exists msg|].
    destruct (responses env (sent ++ [ChatCompletionsCreate model uc]) model uc)
      as [resp|msg'] eqn:Hresp.
    + left. destruct (output_text resp) as [text|].
      * eexists. split; [|reflexivity]. apply strip_idemp.
      * destruct (output resp) as [|o os].
        -- destruct (outputs resp) as [|[|text items] os'];
             eexists; (split; [|reflexivity]); first [apply strip_idemp | done].
        -- destruct o as [|text items];
             eexists; (split; [|reflexivity]); first [apply strip_idemp | done].
    + right. by exists msg'.
Qed.

Lemma call_openai_merge_appends env sentences model sent :
  ∃ new,
    (call_openai_merge env sentences model sent).2 = sent ++ new
    ∧ length new ≤ 2.
Proof.
  destruct (call_openai_merge_cases env sentences model sent)
    as [[_ ->]|[[_ ->]|[[_ ->]|[(_ & _ & v & _ & ->)|(_ & _ & Hrun)]]]].
  1-3: by (exists []; rewrite app_nil_r; simpl; split; [done|lia]).
  - eexists. split; [reflexivity|]. simpl. lia.
  - destruct Hrun as [(v & _ & ->)|(msg & _ & ->)];
      (eexists; split; [simpl; by rewrite <- app_assoc|simpl; lia]).
Qed.

Lemma call_openai_merge_Ok_trimmed env sentences model sent v sent' :
  call_openai_merge env sentences model sent = (Ok v, sent') → strip v = v.
Proof.
  destruct (call_openai_merge_cases env sentences model sent)
    as [[_ ->]|[[_ ->]|[[_ ->]|[(_ & _ & v' & Hv & ->)|(_ & _ & Hrun)]]]];
    try discriminate.
  - by intros [= <- _].
  - by intros [= <- _].
  - destruct Hrun as [(v' & Hv & ->)|(msg & _ & ->)]; [|discriminate].
    by intros [= <- _].
Qed.

(** X4.  An invocation of [call_openai_merge] only appends to the requests
    sent: nothing, or the chat request, or the chat request followed by the
    responses request with the same model and content; the responses request
    is sent only after the chat request failed, and no request is sent for
    an empty sentence list. *)
Theorem call_openai_merge_requests env sentences model sent :
  let chat_req := ChatCompletionsCreate model (user_content_of sentences) in
  let resp_req := ResponsesCreate model (user_content_of sentences) in
  ∃ new,
    (call_openai_merge env sentences model sent).2 = sent ++ new
    ∧ (new = [] ∨ new = [chat_req] ∨ new = [chat_req; resp_req])
    ∧ (new = [chat_req; resp_req] →
       ∃ msg, chat_completions env sent model (user_content_of sentences)
              = Failed msg)
    ∧ (new ≠ [] → sentences ≠ []).
Proof.
  intros chat_req resp_req.
  destruct (call_openai_merge_cases env sentences model sent)
    as [[_ ->]|[[_ ->]|[[_ ->]|[(Hne & _ & v & _ & ->)|(Hne & Hchat & Hrun)]]]].
  1-3: by (exists []; rewrite app_nil_r; repeat split; [left|..]).
  - exists [chat_req]. split; [done|]. split; [by right; left|].
    split; [discriminate|done].
  - exists [chat_req; resp_req].
    split; [by destruct Hrun as [(v & _ & ->)|(msg & _ & ->)]; rewrite <- app_assoc|].
    split; [by right; right|]. done.
Qed.

Lemma call_openai_merge_requests_witness :
  ∃ msg, chat_completions env_unreachable [] MODEL (user_content_of [py "soft"])
         = Failed msg.
Proof.
  destruct (call_openai_merge_requests env_unreachable [py "soft"] MODEL [])
    as (new & Hrun & _ & Hchat & _).
  apply Hchat. vm_compute in Hrun. subst new. vm_compute. reflexivity.
Defined.

(** X5.  Whatever [call_openai_merge] returns is trimmed: the merged
    paragraph never starts or ends with whitespace. *)
Theorem call_openai_merge_returns_trimmed env sentences model sent v :
  (call_openai_merge env sentences model sent).1 = Ok v → strip v = v.
Proof.
  destruct (call_openai_merge_cases env sentences model sent)
    as [[_ ->]|[[_ ->]|[[_ ->]|[(_ & _ & v' & Hv & ->)|(_ & _ & Hrun)]]]];
    simpl; try discriminate.
  - by intros [= <-].
  - by intros [= <-].
  - destruct Hrun as [(v' & Hv & ->)|(msg & _ & ->)]; simpl; [|discriminate].
    by intros [= <-].
Qed.

Lemma call_openai_merge_returns_trimmed_witness :
  strip (py "Soft and calm.") = py "Soft and calm.".
Proof.
  apply (call_openai_merge_returns_trimmed env_answering
           [py "soft"; py "calm"] MODEL []).
  reflexivity.
Defined.



(** ** Every run of the retry controller *)

Section BackoffRuns.
Context {W : Type}.
Variable call : M W pystr.

(** A run of the loop is a row of failed attempts followed by one last
    invocation, whose outcome is the outcome of the run. *)
Lemma backoff_from_run retries :
  ∀ todo attempt w log,
    attempt + todo = retries → 0 < todo →
    ∃ es wk r w',
      fails_in_a_row call es w wk
      ∧ call wk = (r, w')
      ∧ length es < todo
      ∧ (∀ e, r = Raise e → S (length es) = todo)
      ∧ backoff_from call retries todo attempt (w, log)
        = (r, (w', log ++ retry_log retries attempt es ++ [Invoked])).
Proof.
  induction todo as [|todo IH]; intros attempt w log Hsum Hpos; [lia|].
  simpl. destruct (call w) as [[v|e] w1] eqn:Hcall.
  - exists [], w, (Ok v), w1. repeat split; [constructor|done|simpl; lia|done].
  - destruct (Nat.eqb_spec attempt (retries - 1)) as [Heq|Hne].
    + exists [], w, (Raise e), w1.
      repeat split; [constructor|done|simpl; lia|intros; simpl; lia].
    + destruct (IH (S attempt) w1
                  (log ++ [Invoked; Printed (attempt + 1) retries (2 ^ attempt) e;
                           Slept (2 ^ attempt)]))
        as (es & wk & r & w' & Hfail & Hlast & Hlen & Hraise & Hrun); [lia|lia|].
      exists (e :: es), wk, r, w'.
      split; [by econstructor|]. split; [done|]. split; [simpl; lia|].
      split; [intros e' He'; simpl; by rewrite (Hraise e' He')|].
      rewrite Hrun. cbn [retry_log]. by rewrite <- !app_assoc.
Qed.

Lemma backoff_loop_run retries w :
  0 < retries →
  ∃ es wk r w',
    fails_in_a_row call es w wk
    ∧ call wk = (r, w')
    ∧ length es < retries
    ∧ (∀ e, r = Raise e → S (length es) = retries)
    ∧ backoff_loop call retries (w, [])
      = (r, (w', retry_log retries 0 es ++ [Invoked])).
Proof. intros Hpos. by apply (backoff_from_run retries retries 0 w []). Qed.

End BackoffRuns.

(** X7.  Whatever the wrapped call does, the retry controller invokes it at
    most [retries] times and at least once when [retries] is positive; the
    sleeps are 1, 2, 4, ... seconds, one after each invocation but the last,
    less than [2 ^ (retries - 1)] seconds in all; an exception comes out
    only after [retries] invocations; with [retries = 0] the call is not
    made and the empty string is returned. *)
Theorem backoff_loop_bounds {W} (call : M W pystr) (retries : nat) (w : W) :
  let run := backoff_loop call retries (w, []) in
  let log := run.2.2 in
  invocations log ≤ retries
  ∧ (0 < retries → 1 ≤ invocations log ∧ last log = Some Invoked)
  ∧ sleeps log = map (λ i, 2 ^ i) (seq 0 (invocations log - 1))
  ∧ sum_list (sleeps log) < 2 ^ (retries - 1)
  ∧ (∀ e, run.1 = Raise e → invocations log = retries)
  ∧ (retries = 0 → run = (Ok [], (w, []))).
Proof.
  intros run log. destruct retries as [|n].
  - subst log run. simpl. repeat split; try done; lia.
  - destruct (backoff_loop_run call (S n) w) as
      (es & wk & r & w' & _ & _ & Hlen & Hraise & Hrun); [lia|].
    subst log run. rewrite Hrun. simpl fst. simpl snd.
    assert (Hinv : invocations (retry_log (S n) 0 es ++ [Invoked]) = S (length es)).
    { rewrite invocations_app, invocations_retry_log.
      change (invocations [Invoked]) with 1. lia. }
    assert (Hsl : sleeps (retry_log (S n) 0 es ++ [Invoked])
                  = map (λ i, 2 ^ i) (seq 0 (length es))).
    { rewrite sleeps_app, sleeps_retry_log. apply app_nil_r. }
    rewrite Hinv, Hsl. replace (S (length es) - 1) with (length es) by lia.
    split; [lia|]. split; [intros _; split; [lia | apply last_snoc]|].
    split; [done|]. split.
    + pose proof (sum_powers_of_two (length es) 0) as Hsum. simpl in Hsum.
      assert (2 ^ length es ≤ 2 ^ (S n - 1))
        by (apply Nat.pow_le_mono_r; lia).
      lia.
    + split; [intros e He; by rewrite (Hraise e He) | discriminate].
Qed.

Lemma backoff_loop_bounds_witness :
  1 ≤ invocations (backoff_loop flaky_call 5 (0, [])).2.2
  ∧ invocations (backoff_loop failing_call 5 (0, [])).2.2 = 5
  ∧ backoff_loop flaky_call 0 (0, []) = (Ok [], (0, [])).
Proof.
  split; [|split].
  - apply (proj1 (proj2 (backoff_loop_bounds flaky_call 5 0))). lia.
  - apply (proj1 (proj2 (proj2 (proj2 (proj2
             (backoff_loop_bounds failing_call 5 0)))))
             (SdkError (py "timeout"))).
    reflexivity.
  - apply (proj2 (proj2 (proj2 (proj2 (proj2
             (backoff_loop_bounds flaky_call 0 0)))))).
    reflexivity.
Defined.

(** ** Requests of a merged column *)

Lemma fails_in_a_row_requests env sentences model es sent sent' :
  fails_in_a_row (call_openai_merge env sentences model) es sent sent' →
  ∃ new, sent' = sent ++ new ∧ length new ≤ 2 * length es.
Proof.
  induction 1 as [sent|e es sent sent1 sent2 Hcall _ IH].
  - exists []. by rewrite app_nil_r.
  - destruct IH as (new2 & -> & Hlen2).
    destruct (call_openai_merge_appends env sentences model sent)
      as (new1 & Hnew1 & Hlen1).
    rewrite Hcall in Hnew1. simpl in Hnew1. subst sent1.
    exists (new1 ++ new2). split; [by rewrite app_assoc|].
    rewrite length_app. simpl. lia.
Qed.

Lemma backoff_call_run env sentences model retries sent :
  0 < retries →
  ∃ es sentk r new,
    fails_in_a_row (call_openai_merge env sentences model) es sent sentk
    ∧ call_openai_merge env sentences model sentk = (r, sent ++ new)
    ∧ length es < retries
    ∧ length new ≤ 2 * S (length es)
    ∧ backoff_call env sentences model retries (sent, [])
      = (r, (sent ++ new, retry_log retries 0 es ++ [Invoked])).
Proof.
  intros Hpos. unfold backoff_call.
  destruct (backoff_loop_run (call_openai_merge env sentences model) retries sent Hpos)
    as (es & sentk & r & sent' & Hfail & Hcall & Hlen & _ & Hrun).
  destruct (fails_in_a_row_requests _ _ _ _ _ _ Hfail) as (new1 & Hk & Hlen1).
  destruct (call_openai_merge_appends env sentences model sentk)
    as (new2 & Hnew2 & Hlen2).
  rewrite Hcall in Hnew2. simpl in Hnew2. subst sent' sentk.
  exists es, (sent ++ new1), r, (new1 ++ new2).
  rewrite app_assoc, length_app. repeat split; try done. lia.
Qed.

(** X8.  Merging one column through [backoff_call] keeps the requests sent
    before and adds at most two per attempt, [2 * retries] in all (ten with
    the five attempts of the scripts); when the credential or the SDK is
    missing, or the sentence list is empty, it adds none. *)
Theorem backoff_call_requests env sentences model retries sent :
  ∃ new,
    (backoff_call env sentences model retries (sent, [])).2.1 = sent ++ new
    ∧ length new ≤ 2 * retries
    ∧ length new ≤ 2 * invocations
                         (backoff_call env sentences model retries (sent, [])).2.2
    ∧ ((sentences = [] ∨ OPENAI_API_KEY env = None
        ∨ openai_installed env = false) → new = []).
Proof.
  destruct retries as [|n].
  - exists []. simpl. rewrite app_nil_r. repeat split; done || lia.
  - destruct (backoff_call_run env sentences model (S n) sent)
      as (es & sentk & r & new & Hfail & Hcall & Hlen & Hnew & Hrun); [lia|].
    rewrite Hrun. simpl fst. simpl snd. exists new. split; [done|].
    rewrite invocations_app, invocations_retry_log.
    change (invocations [Invoked]) with 1.
    split; [lia|]. split; [lia|].
    intros Hoff.
    assert (Hnone : ∀ s, (call_openai_merge env sentences model s).2 = s).
    { intros s. unfold call_openai_merge.
      destruct sentences as [|s0 rest]; [done|].
      destruct Hoff as [Hs|[Hk|Hi]]; [done|by rewrite Hk|].
      rewrite Hi. by destruct (OPENAI_API_KEY env) as [[|? ?]|]. }
    assert (sentk = sent) as Heq.
    { clear -Hfail Hnone. induction Hfail as [|e es s s1 s2 Hc _ IH]; [done|].
      specialize (Hnone s) as Hs. rewrite Hc in Hs. simpl in Hs. congruence. }
    specialize (Hnone sentk). rewrite Hcall, Heq in Hnone. simpl in Hnone.
    apply app_inv_head with sent. by rewrite app_nil_r.
Qed.

Lemma backoff_call_requests_witness :
  (backoff_call env_without_key [py "soft"] MODEL 5 ([], [])).2.1 = [].
Proof.
  destruct (backoff_call_requests env_without_key [py "soft"] MODEL 5 [])
    as (new & Hsent & _ & _ & Hnone).
  rewrite Hsent, Hnone; [reflexivity|]. right; left. reflexivity.
Defined.

(** ** The merge of one file *)

Lemma written_paths_app log1 log2 :
  written_paths (log1 ++ log2) = written_paths log1 ++ written_paths log2.
Proof. apply omap_app. Qed.

Lemma printed_columns_app log1 log2 :
  printed_columns (log1 ++ log2) = printed_columns log1 ++ printed_columns log2.
Proof. apply omap_app. Qed.

Lemma retry_events_app log1 log2 :
  retry_events (log1 ++ log2) = retry_events log1 ++ retry_events log2.
Proof. apply omap_app. Qed.

Lemma written_paths_Retry ctl : written_paths (Retry <$> ctl) = [].
Proof. by induction ctl. Qed.

Lemma printed_columns_Retry ctl : printed_columns (Retry <$> ctl) = [].
Proof. by induction ctl. Qed.

Lemma written_paths_ReadCsv tried : written_paths (ReadCsv <$> tried) = [].
Proof. by induction tried. Qed.

Lemma printed_columns_ReadCsv tried : printed_columns (ReadCsv <$> tried) = [].
Proof. by induction tried. Qed.

Lemma retry_events_ReadCsv tried : retry_events (ReadCsv <$> tried) = [].
Proof. by induction tried. Qed.

Section ProcessFile.
Context {R : Runtime}.

(** *** What a sample code selects *)

Lemma labelled_not_elem_of (df : RawFrame) label :
  label ∉ map fst df → labelled label df = [].
Proof.
  induction df as [|[l c] df IH]; [done|]. intros Hin.
  unfold labelled. simpl. rewrite bool_decide_eq_false_2.
  - apply IH. intros Hl. apply Hin. simpl. by apply elem_of_cons; right.
  - simpl. intros ->. apply Hin. simpl. by apply elem_of_cons; left.
Qed.

Lemma labelled_elem_of (df : RawFrame) label :
  label ∈ map fst df → labelled label df ≠ [].
Proof.
  induction df as [|[l c] df IH]; simpl; [by intros ?%elem_of_nil|].
  intros Hin. unfold labelled. simpl.
  destruct (decide (l = label)) as [->|Hne].
  - by rewrite bool_decide_eq_true_2.
  - rewrite bool_decide_eq_false_2 by done. apply IH.
    by apply elem_of_cons in Hin as [->|Hin].
Qed.

(** A label of the table selects something. *)
Lemma getitem_elem_of (df : RawFrame) label :
  label ∈ map fst df → ∃ sel, getitem label df = Ok sel.
Proof.
  intros H%labelled_elem_of. unfold getitem.
  destruct (labelled label df) as [|c [|c' r]]; [done|by eexists..].
Qed.

Lemma getitem_sentences (df : RawFrame) label sel :
  getitem label df = Ok sel →
  sentences_of label df = collect_sentences (iterated sel).
Proof. unfold sentences_of. by intros ->. Qed.

(** A label of its own selects the cells of its column. *)
Lemma labelled_NoDup (df : RawFrame) col :
  NoDup (map fst df) → col ∈ df → labelled col.1 df = [col].
Proof.
  induction df as [|[l c] df IH]; simpl; [by intros _ ?%elem_of_nil|].
  intros [Hl Hnd]%NoDup_cons Hin. unfold labelled. simpl.
  apply elem_of_cons in Hin as [->|Hin].
  - simpl. rewrite bool_decide_eq_true_2 by done. f_equal.
    by apply labelled_not_elem_of.
  - rewrite bool_decide_eq_false_2; [by apply IH|].
    simpl. intros ->. apply Hl. apply list_elem_of_fmap. by exists col.
Qed.

Lemma sentences_of_NoDup (df : RawFrame) col :
  NoDup (map fst df) → col ∈ df →
  getitem col.1 df = Ok (Series col.2)
  ∧ sentences_of col.1 df = collect_sentences col.2.
Proof.
  intros Hnd Hin. unfold sentences_of, getitem.
  by rewrite (labelled_NoDup df col Hnd Hin).
Qed.


(** What the loop over the columns keeps true, whatever the service does. *)
Lemma process_columns_inv env model df codes :
  Forall (λ code, code ∈ map fst df) codes →
  ∀ results sent log,
    ∃ new_sent new_log k,
      (process_columns env model df codes results (sent, log)).2
      = (sent ++ new_sent, log ++ new_log)
      ∧ written_paths new_log = []
      ∧ length new_sent ≤ 2 * DEFAULT_RETRIES * length codes
      ∧ printed_columns new_log = take k codes
      ∧ match (process_columns env model df codes results (sent, log)).1 with
        | Ok out =>
            k = length codes
            ∧ ∃ merged,
                out = results ++ merged
                ∧ merged_rows env model
                    (map (λ code, (code, sentences_of code df)) codes)
                    sent merged (sent ++ new_sent)
                ∧ Forall (λ row, strip row.2 = row.2) merged
        | Raise e =>
            ∃ code sent_k,
              codes !! k = Some code
              ∧ sentences_of code df ≠ []
              ∧ (backoff_call env (sentences_of code df) model
                   DEFAULT_RETRIES (sent_k, [])).1 = Raise e
        end.
Proof.
  induction 1 as [|code rest Hcode _ IH]; intros results sent log.
  - exists [], [], 0. simpl. rewrite !app_nil_r. repeat split; try done.
    exists []. rewrite app_nil_r. repeat split; [constructor|done].
  - cbn [process_columns].
    destruct (getitem_elem_of df code Hcode) as [sel Hsel]. rewrite Hsel.
    pose proof (getitem_sentences df code sel Hsel) as Hsof.
    cbv zeta.
    destruct (collect_sentences (iterated sel)) as [|s0 ss] eqn:Hsent.
    + destruct (IH (results ++ [(code, [])]) sent
                  (log ++ [PrintColumn code (length (@nil pystr))]))
        as (new_sent & new_log & k & Hst & Hw & Hlen & Hp & Hres).
      exists new_sent, (PrintColumn code 0 :: new_log), (S k).
      rewrite Hst. split; [by rewrite <- app_assoc|]. split; [done|].
      split; [simpl length; lia|]. split; [simpl; by rewrite <- Hp|].
      revert Hres.
      destruct (process_columns env model df rest _ _).1 as [out|e];
        intros Hres; [|done].
      destruct Hres as (-> & merged & -> & Hrows & Hall). split; [done|].
      exists ((code, []) :: merged). split; [by rewrite <- app_assoc|].
      split; [|by constructor].
      cbn [map]. rewrite Hsof. by constructor.
    + destruct (backoff_call_run env (s0 :: ss) model DEFAULT_RETRIES sent)
        as (es & sentk & r & new & Hfail & Hcall & Hes & Hnew & Hrun);
        [unfold DEFAULT_RETRIES; lia|].
      rewrite Hrun. destruct r as [v|e].
      * destruct (IH (results ++ [(code, v)]) (sent ++ new)
                    (log ++ (Retry <$> (retry_log DEFAULT_RETRIES 0 es ++ [Invoked]))
                         ++ [PrintColumn code (length (s0 :: ss))]))
          as (new_sent & new_log & k & Hst & Hw & Hlen & Hp & Hres).
        exists (new ++ new_sent),
          ((Retry <$> (retry_log DEFAULT_RETRIES 0 es ++ [Invoked]))
           ++ PrintColumn code (length (s0 :: ss)) :: new_log), (S k).
        rewrite Hst. split; [by rewrite <- !app_assoc|].
        split; [by rewrite written_paths_app, written_paths_Retry|].
        split; [rewrite length_app; simpl length; unfold DEFAULT_RETRIES in *; lia|].
        split; [rewrite printed_columns_app, printed_columns_Retry; simpl;
                by rewrite <- Hp|].
        revert Hres.
        destruct (process_columns env model df rest _ _).1 as [out|e];
          intros Hres; [|done].
        destruct Hres as (-> & merged & -> & Hrows & Hall). split; [done|].
        exists ((code, v) :: merged). split; [by rewrite <- app_assoc|].
        split.
        -- cbn [map]. rewrite Hsof, app_assoc.
           by apply (merged_call env model code (s0 :: ss) _ sent v
                       (sent ++ new) (retry_log DEFAULT_RETRIES 0 es ++ [Invoked])).
        -- constructor; [|done].
           by apply (call_openai_merge_Ok_trimmed _ _ _ _ _ _ Hcall).
      * exists new, (Retry <$> (retry_log DEFAULT_RETRIES 0 es ++ [Invoked])), 0.
        simpl fst. simpl snd. split; [done|].
        split; [apply written_paths_Retry|].
        split; [simpl length; unfold DEFAULT_RETRIES in *; lia|].
        split; [apply printed_columns_Retry|].
        exists code, sent. rewrite Hsof, Hrun. done.
Qed.


Lemma clean_column_names_labels (df : RawFrame) :
  map fst (clean_column_names df) = map (λ col, clean_header (Some col.1)) df.
Proof. unfold clean_column_names. by rewrite map_map. Qed.

Lemma labels_elem_of (df : RawFrame) :
  Forall (λ code, code ∈ map fst df) (map fst df).
Proof. by apply Forall_forall. Qed.

End ProcessFile.

Section ProcessFileProperties.
Context {R : Runtime}.
Variable env : Env.
Variable read_csv : pystr → parsed RawFrame.
Variable to_csv : list (pystr * pystr) → option exn.
Variables input_name output_name model : pystr.

Lemma process_file_loader_failure e sent log :
  (read_csv_smart read_csv).1 = Raise e →
  process_file env read_csv to_csv input_name output_name model (sent, log)
  = (Raise e, (sent, (log ++ [PrintStart input_name])
                     ++ (ReadCsv <$> (read_csv_smart read_csv).2))).
Proof.
  intros Hread. unfold process_file.
  destruct (read_csv_smart read_csv) as [r tried]. simpl in Hread. by subst r.
Qed.

Lemma process_file_loaded df sent log :
  (read_csv_smart read_csv).1 = Ok df →
  process_file env read_csv to_csv input_name output_name model (sent, log)
  = match process_columns env model (clean_column_names df)
            (map fst (clean_column_names df)) []
            (sent, (log ++ [PrintStart input_name])
                   ++ (ReadCsv <$> (read_csv_smart read_csv).2)) with
    | (Ok results, (sent', log')) =>
        match to_csv results with
        | Some e => (Raise e, (sent', log'))
        | None =>
            (Ok (),
             (sent', log' ++ [WriteCsv output_name results;
                              PrintDone output_name (length results)]))
        end
    | (Raise e, st) => (Raise e, st)
    end.
Proof.
  intros Hread. unfold process_file.
  destruct (read_csv_smart read_csv) as [r tried]. simpl in Hread. by subst r.
Qed.


Lemma process_columns_blank (df : RawFrame) codes :
  Forall (λ code, ∃ sel, getitem code df = Ok sel
                         ∧ collect_sentences (iterated sel) = []) codes →
  ∀ results sent log,
    process_columns env model df codes results (sent, log)
    = (Ok (results ++ map (λ code, (code, [])) codes),
       (sent, log ++ map (λ code, PrintColumn code 0) codes)).
Proof.
  induction 1 as [|code codes (sel & Hsel & Hblank) _ IH];
    intros results sent log.
  - simpl. by rewrite !app_nil_r.
  - cbn [process_columns]. rewrite Hsel. cbv zeta. rewrite Hblank, IH. simpl.
    by rewrite <- !app_assoc.
Qed.

(** X10.  A table whose cleaned headers are distinct and in which no column
    has a usable sentence is processed without the service: whatever the
    environment holds, also without a credential, [process_file] sends no
    request, invokes the merge call for no column, and writes one row per
    column with the cleaned header and an empty paragraph; it raises only
    if that table cannot be written. *)
Theorem process_file_blank_table df sent log :
  (read_csv_smart read_csv).1 = Ok df →
  NoDup (map fst (clean_column_names df)) →
  Forall (λ col, collect_sentences col.2 = []) df →
  let rows := map (λ col, (clean_header (Some col.1), [])) df in
  let log' :=
    log ++ [PrintStart input_name]
        ++ (ReadCsv <$> (read_csv_smart read_csv).2)
        ++ map (λ col, PrintColumn (clean_header (Some col.1)) 0) df in
  process_file env read_csv to_csv input_name output_name model (sent, log)
  = match to_csv rows with
    | Some e => (Raise e, (sent, log'))
    | None =>
        (Ok (),
         (sent, log' ++ [WriteCsv output_name rows;
                         PrintDone output_name (length df)]))
    end.
Proof.
  intros Hread Hnd Hblank rows log'. subst rows log'.
  rewrite (process_file_loaded df sent log Hread).
  rewrite process_columns_blank.
  - rewrite !app_nil_l, clean_column_names_labels, !map_map, !length_map.
    simpl. rewrite <- !app_assoc. simpl.
    destruct (to_csv _); [done|]. by rewrite <- !app_assoc.
  - apply Forall_forall. intros code Hcode.
    change (map fst ?l) with (fst <$> l) in Hcode.
    apply list_elem_of_fmap in Hcode as (col' & -> & Hcol').
    destruct (sentences_of_NoDup _ col' Hnd Hcol') as [Hsel _].
    exists (Series col'.2). split; [done|]. simpl.
    unfold clean_column_names in Hcol'.
    change (map ?f df) with (f <$> df) in Hcol'.
    apply list_elem_of_fmap in Hcol' as (col & -> & Hcol). simpl.
    by apply (proj1 (Forall_forall _ _) Hblank).
Qed.

Lemma process_file_written sent log :
  let run :=
    process_file env read_csv to_csv input_name output_name model (sent, log) in
  written_paths run.2.2
  = written_paths log ++ match run.1 with Ok _ => [output_name] | Raise _ => [] end.
Proof.
  intros run. subst run.
  destruct (read_csv_smart read_csv).1 as [df|e'] eqn:Hread.
  - rewrite (process_file_loaded df sent log Hread).
    set (df' := clean_column_names df) in *.
    set (log0 := (log ++ [PrintStart input_name]) ++ _).
    assert (Hw0 : written_paths log0 = written_paths log).
    { subst log0. rewrite !written_paths_app, written_paths_ReadCsv. simpl.
      by rewrite !app_nil_r. }
    destruct (process_columns_inv env model df' (map fst df')
                (labels_elem_of df') [] sent log0)
      as (new_sent & new_log & k & Hst & Hw & _ & _ & _).
    destruct (process_columns env model df' (map fst df') [] (sent, log0))
      as [[out|e] [sent' log']]; simpl in Hst; injection Hst as -> ->.
    + destruct (to_csv out); simpl.
      * by rewrite written_paths_app, Hw0, Hw, !app_nil_r.
      * rewrite !written_paths_app, Hw0, Hw. simpl. by rewrite app_nil_r.
    + simpl. by rewrite written_paths_app, Hw0, Hw, !app_nil_r.
  - rewrite (process_file_loader_failure e' sent log Hread). simpl.
    rewrite !written_paths_app, written_paths_ReadCsv. simpl.
    by rewrite !app_nil_r.
Qed.

(** X11.  [process_file] writes its table only after every column has been
    merged: when it returns, exactly the output file has been written, once;
    when it raises, nothing has been written, and it raises in three cases
    only: the file could not be read, and then no request was sent; the
    merge of a column failed for good, the exception being the one that
    [backoff_call] raised for the sentences of that column, and then the
    columns merged are those before it; or the table could not be written,
    after every column was merged. *)
Theorem process_file_all_or_nothing sent log :
  let run :=
    process_file env read_csv to_csv input_name output_name model (sent, log) in
  written_paths run.2.2
  = written_paths log ++ match run.1 with Ok _ => [output_name] | Raise _ => [] end
  ∧ (∀ e, run.1 = Raise e →
       match (read_csv_smart read_csv).1 with
       | Raise e' => e = e' ∧ run.2.1 = sent
       | Ok df =>
           let df' := clean_column_names df in
           (∃ k code sent_k,
              map fst df' !! k = Some code
              ∧ printed_columns run.2.2
                = printed_columns log ++ take k (map fst df')
              ∧ sentences_of code df' ≠ []
              ∧ (backoff_call env (sentences_of code df') model
                   DEFAULT_RETRIES (sent_k, [])).1 = Raise e)
           ∨ (∃ results,
                to_csv results = Some e
                ∧ merged_rows env model
                    (map (λ col, (col.1, sentences_of col.1 df')) df')
                    sent results run.2.1
                ∧ printed_columns run.2.2
                  = printed_columns log ++ map fst df')
       end).
Proof.
  intros run. split; [apply process_file_written|]. subst run.
  destruct (read_csv_smart read_csv).1 as [df|e'] eqn:Hread.
  - rewrite (process_file_loaded df sent log Hread). cbv zeta.
    set (df' := clean_column_names df) in *.
    set (log0 := (log ++ [PrintStart input_name]) ++ _).
    assert (Hp0 : printed_columns log0 = printed_columns log).
    { subst log0. rewrite !printed_columns_app, printed_columns_ReadCsv. simpl.
      by rewrite !app_nil_r. }
    destruct (process_columns_inv env model df' (map fst df')
                (labels_elem_of df') [] sent log0)
      as (new_sent & new_log & k & Hst & _ & _ & Hp & Hres).
    destruct (process_columns env model df' (map fst df') [] (sent, log0))
      as [[out|e] [sent' log']]; simpl in Hst, Hres; injection Hst as -> ->.
    + destruct Hres as (-> & merged & -> & Hrows & _). rewrite firstn_all in Hp.
      rewrite map_map in Hrows. simpl app.
      destruct (to_csv merged) as [e|] eqn:Hcsv; simpl; [|discriminate].
      intros e0 [= <-]. right. exists merged. split; [done|]. split; [done|].
      by rewrite printed_columns_app, Hp0, Hp.
    + simpl. intros e0 [= <-]. left.
      destruct Hres as (code & sent_k & Hk & Hne & Hcall).
      exists k, code, sent_k. split; [done|]. split; [|done].
      by rewrite printed_columns_app, Hp0, Hp.
  - rewrite (process_file_loader_failure e' sent log Hread). simpl.
    by intros e [= ->].
Qed.

(** X12.  [process_file] keeps the requests sent before it and adds at most
    ten per column of the table (two per attempt, five attempts); when the
    file cannot be read it sends none. *)
Theorem process_file_requests sent log :
  let run :=
    process_file env read_csv to_csv input_name output_name model (sent, log) in
  ∃ new,
    run.2.1 = sent ++ new
    ∧ match (read_csv_smart read_csv).1 with
      | Ok df => length new ≤ 10 * length df
      | Raise _ => new = []
      end.
Proof.
  intros run. subst run.
  destruct (read_csv_smart read_csv).1 as [df|e'] eqn:Hread.
  - rewrite (process_file_loaded df sent log Hread).
    set (df' := clean_column_names df) in *.
    set (log0 := (log ++ [PrintStart input_name]) ++ _).
    destruct (process_columns_inv env model df' (map fst df')
                (labels_elem_of df') [] sent log0)
      as (new_sent & new_log & k & Hst & _ & Hlen & _ & _).
    exists new_sent. subst df'. unfold clean_column_names in Hlen.
    rewrite !length_map in Hlen. unfold DEFAULT_RETRIES in Hlen.
    split; [|simpl in Hlen; lia].
    destruct (process_columns env model _ _ [] (sent, log0))
      as [[out|e] [sent' log']]; simpl in Hst; injection Hst as -> ->;
      [by destruct (to_csv out)|done].
  - rewrite (process_file_loader_failure e' sent log Hread). simpl.
    exists []. by rewrite app_nil_r.
Qed.

End ProcessFileProperties.


Lemma process_file_blank_table_witness :
  process_file (R := ascii_runtime) env_without_key (read_as sample_blank)
    (λ _, None) (py "life.csv") (py "life_gpt.csv") MODEL ([], [])
  = (Ok (),
     ([],
      [PrintStart (py "life.csv"); ReadCsv (py "utf-8-sig");
       ReadCsv (py "utf-8");
       PrintColumn (py "A-01") 0; PrintColumn (py "B-02") 0;
       WriteCsv (py "life_gpt.csv") [(py "A-01", []); (py "B-02", [])];
       PrintDone (py "life_gpt.csv") 2])).
Proof.
  rewrite (process_file_blank_table (R := ascii_runtime) env_without_key
             (read_as sample_blank) (λ _, None) (py "life.csv")
             (py "life_gpt.csv") MODEL sample_blank [] []).
  - reflexivity.
  - reflexivity.
  - apply (bool_decide_unpack (NoDup _)). vm_compute. exact I.
  - repeat constructor.
Defined.

Lemma process_file_all_or_nothing_witness :
  written_paths
    (process_file (R := ascii_runtime) env_without_key (read_as sample_raw)
       (λ _, None) (py "beauty.csv") (py "beauty_gpt.csv") MODEL ([], [])).2.2
  = [].
Proof.
  exact (proj1 (process_file_all_or_nothing (R := ascii_runtime)
            env_without_key (read_as sample_raw) (λ _, None) (py "beauty.csv")
            (py "beauty_gpt.csv") MODEL [] [])).
Defined.

Lemma process_file_requests_witness :
  ∃ new,
    (process_file (R := ascii_runtime) env_unreachable (read_as sample_raw)
       (λ _, None) (py "beauty.csv") (py "beauty_gpt.csv") MODEL ([], [])).2.1
    = [] ++ new
    ∧ length new ≤ 10 * length sample_raw.
Proof.
  exact (process_file_requests (R := ascii_runtime)
           env_unreachable (read_as sample_raw) (λ _, None) (py "beauty.csv")
           (py "beauty_gpt.csv") MODEL [] []).
Defined.

(** Cleaning can make two headers equal.  The label then selects the table
    of the columns that carry it, and the sentences merged for it are the
    label itself, once per such column, not the cells. *)
Example sentences_of_colliding_headers :
  let df := clean_column_names (R := ascii_runtime)
              [(py "1. A-01", [Some (py "soft")]);
               (py "2. A-01", [Some (py "calm")]);
               (py "3. B-02", [Some (py "warm")])] in
  map fst df = [py "A-01"; py "A-01"; py "B-02"]
  ∧ sentences_of (py "A-01") df = [py "A-01"; py "A-01"]
  ∧ sentences_of (py "B-02") df = [py "warm"].
Proof. by repeat split. Qed.

(** ** The run over the three files *)

Section Main.
Context {R : Runtime}.
Variable env : Env.
Variable fs : pystr → pystr → parsed RawFrame.
Variable out : pystr → list (pystr * pystr) → option exn.

Lemma main_from_written files :
  ∀ sent log,
    let run := main_from env fs out files (sent, log) in
    ∃ k,
      written_paths run.2.2 = written_paths log ++ take k (map snd files)
      ∧ match run.1 with
        | Ok _ => k = length files ∧ last run.2.2 = Some PrintAllDone
        | Raise _ => k < length files
        end.
Proof.
  induction files as [|[in_name out_name] rest IH]; intros sent log run; subst run.
  - exists 0. simpl. rewrite written_paths_app, last_snoc. simpl.
    by rewrite app_nil_r.
  - cbn [main_from].
    pose proof (process_file_written env (fs in_name) (out out_name)
                  in_name out_name MODEL sent log) as Hw. cbv zeta in Hw.
    destruct (process_file env (fs in_name) (out out_name) in_name out_name
                MODEL (sent, log))
      as [[[]|e] [sent' log']]; simpl in Hw.
    + destruct (IH sent' log') as (k & Hk & Hres). exists (S k).
      rewrite Hk, Hw. split; [simpl; by rewrite <- app_assoc|].
      destruct (main_from env fs out rest (sent', log')).1; simpl; [|lia].
      destruct Hres as [-> Hlast]. done.
    + exists 0. simpl. rewrite Hw. split; [done|lia].
Qed.

(** X13.  [main] of the merge script processes beauty, homeAppliance and
    life in this order and stops at the first file that raises: the output
    files written are the first [k] of the three, all three exactly when the
    run completes, and then the closing message is the last thing printed;
    the outputs of the files before a failing one stay written.  When the
    output directory cannot be created, no file is processed. *)
Theorem main_writes_in_order (mkdir : option exn) sent :
  let run := main env fs out mkdir (sent, []) in
  (∃ k,
     written_paths run.2.2
     = take k [py "beauty_gpt.csv"; py "homeAppliance_gpt.csv"; py "life_gpt.csv"]
     ∧ match run.1 with
       | Ok _ => k = 3 ∧ last run.2.2 = Some PrintAllDone
       | Raise _ => k < 3
       end)
  ∧ (∀ e, mkdir = Some e → run = (Raise e, (sent, []))).
Proof.
  intros run. subst run. unfold main. destruct mkdir as [e|].
  - split; [|by intros e' [= ->]]. exists 0. simpl. split; [done|lia].
  - split; [apply (main_from_written io_map sent [])|done].
Qed.

End Main.

Lemma main_writes_in_order_witness :
  ∃ k,
    written_paths
      (main (R := ascii_runtime) env_unreachable
         (λ in_name, if decide (in_name = py "beauty.csv")
                     then read_as sample_blank else read_as sample_raw)
         (λ _ _, None) None ([], [])).2.2
    = take k [py "beauty_gpt.csv"; py "homeAppliance_gpt.csv"; py "life_gpt.csv"]
    ∧ k < 3.
Proof.
  exact (proj1 (main_writes_in_order (R := ascii_runtime) env_unreachable
                  _ _ None [])).
Defined.

(** ** Column selection, again *)

Lemma column_first label cells (df : DataFrame) :
  column label ((label, cells) :: df) = Some cells.
Proof. simpl. by rewrite decide_True. Qed.

Lemma ensure_columns_two_columns (df : DataFrame) :
  2 ≤ length df → ∃ frame, ensure_columns df = Ok frame.
Proof.
  intros Hlen. unfold ensure_columns.
  destruct (has_column SAMPLE_CODE df && has_column GPT_PARAGRAPH df) eqn:Hboth.
  - apply andb_true_iff in Hboth as [Hsc Hgp].
    destruct (has_column_column _ _ Hsc) as [codes Hcodes].
    destruct (has_column_column _ _ Hgp) as [paragraphs Hparagraphs].
    unfold select2. rewrite Hcodes, Hparagraphs. by eexists.
  - destruct df as [|[l0 c0] [|[l1 c1] rest]]; simpl in Hlen; [lia|lia|].
    unfold select2. cbn [columns map fst]. rewrite column_first.
    simpl. destruct (decide (l0 = l1)); [by eexists|].
    rewrite decide_True by done. by eexists.
Qed.

Lemma ensure_columns_one_column (df : DataFrame) :
  length df < 2 → ensure_columns df = Raise ValueError.
Proof.
  intros Hlen.
  destruct df as [|[l0 c0] [|col1 rest]]; [done| |simpl in Hlen; lia].
  unfold ensure_columns, has_column.
  destruct (bool_decide (SAMPLE_CODE ∈ columns [(l0, c0)])) eqn:Hsc; [|done].
  destruct (bool_decide (GPT_PARAGRAPH ∈ columns [(l0, c0)])) eqn:Hgp; [|done].
  apply bool_decide_eq_true in Hsc, Hgp. simpl in Hsc, Hgp.
  apply list_elem_of_singleton in Hsc, Hgp. rewrite <- Hsc in Hgp.
  vm_compute in Hgp. discriminate.
Qed.

(** X14.  On a loaded table, whose labels are distinct, [ensure_columns]
    raises exactly when the table has fewer than two columns, and then it is
    [ValueError]; with two columns or more, whatever their labels, it
    returns a frame. *)
Theorem ensure_columns_raises_iff (df : DataFrame) :
  NoDup (columns df) →
  ((∃ e, ensure_columns df = Raise e) ↔ length df < 2)
  ∧ (∀ e, ensure_columns df = Raise e → e = ValueError)
  ∧ (2 ≤ length df → ∃ frame, ensure_columns df = Ok frame).
Proof.
  intros _.
  assert (Hcases : length df < 2 ∨ 2 ≤ length df) by lia.
  split; [|split].
  - split.
    + intros [e He]. destruct Hcases as [?|Hlen]; [done|].
      destruct (ensure_columns_two_columns df Hlen) as [frame Hframe]. congruence.
    + intros Hlen. exists ValueError. by apply ensure_columns_one_column.
  - intros e He. destruct Hcases as [Hlen|Hlen].
    + rewrite (ensure_columns_one_column df Hlen) in He. by injection He as <-.
    + destruct (ensure_columns_two_columns df Hlen) as [frame Hframe]. congruence.
  - apply ensure_columns_two_columns.
Qed.

Lemma ensure_columns_raises_iff_witness :
  (∃ e, ensure_columns [(py "code", [py "A-1"])] = Raise e)
  ∧ ∃ frame,
      ensure_columns [(py "code", [py "A-1"]); (py "text", [py "soft"])]
      = Ok frame.
Proof.
  split.
  - apply (proj1 (ensure_columns_raises_iff
                    [(py "code", [py "A-1"])]
                    ltac:(apply (bool_decide_unpack (NoDup _)); vm_compute;
                          exact I))).
    simpl. lia.
  - apply (proj2 (proj2 (ensure_columns_raises_iff
                    [(py "code", [py "A-1"]); (py "text", [py "soft"])]
                    ltac:(apply (bool_decide_unpack (NoDup _)); vm_compute;
                          exact I)))).
    simpl. lia.
Defined.

(** ** Reordering, further *)

Section ReorderMore.
Context {R : Runtime}.

Lemma build_mapping_Some (rows : list (pystr * pystr)) key row :
  build_mapping rows !! key = Some row →
  row ∈ rows ∧ normalize_code row.1 = key.
Proof.
  rewrite build_mapping_lookup.
  intros Hrow%head_Some_elem_of. by apply list_elem_of_filter in Hrow as [? ?].
Qed.

Lemma build_mapping_None (rows : list (pystr * pystr)) key :
  build_mapping rows !! key = None
  ↔ Forall (λ row, normalize_code row.1 ≠ key) rows.
Proof.
  rewrite build_mapping_lookup. induction rows as [|row rows IH]; [done|].
  destruct (decide (normalize_code row.1 = key)) as [Hk|Hk].
  - rewrite filter_cons_True by done. simpl. split; [done|].
    by intros [? _]%Forall_cons.
  - rewrite filter_cons_False by done. rewrite IH. split.
    + by constructor.
    + by intros [_ ?]%Forall_cons.
Qed.

Lemma omap_filter_length {A B} (f : A → option B) (l : list A)
    `{∀ x, Decision (f x = None)} :
  length (omap f l) + length (filter (λ x, f x = None) l) = length l.
Proof.
  induction l as [|x l IH]; [done|].
  destruct (f x) as [y|] eqn:Hx.
  - rewrite filter_cons_False by (by rewrite Hx).
    replace (omap f (x :: l)) with (y :: omap f l) by (simpl; by rewrite Hx).
    simpl length. lia.
  - rewrite filter_cons_True by done.
    replace (omap f (x :: l)) with (omap f l) by (simpl; by rewrite Hx).
    simpl length. lia.
Qed.

(** X16.  The reordering accounts for every canonical code once: a code is
    either answered by a row or listed as missing, and it is missing exactly
    when no row of the table has its key.  Every emitted row is a row of the
    table whose key is the key of a canonical code, so a row whose key no
    canonical code has is never emitted. *)
Theorem reorder_accounts_for_every_code (rows : list (pystr * pystr))
    (desired_order : list pystr) :
  let out := (reorder (build_mapping rows) desired_order).1 in
  let missing := (reorder (build_mapping rows) desired_order).2 in
  length out + length missing = length desired_order
  ∧ missing `sublist_of` desired_order
  ∧ (∀ code, code ∈ missing ↔
       code ∈ desired_order
       ∧ Forall (λ row, normalize_code row.1 ≠ normalize_code code) rows)
  ∧ (∀ row, row ∈ out →
       row ∈ rows
       ∧ ∃ code, code ∈ desired_order
                 ∧ normalize_code code = normalize_code row.1).
Proof.
  intros out missing. subst out missing. rewrite reorder_spec. simpl.
  split; [apply omap_filter_length|]. split; [apply sublist_filter|]. split.
  - intros code. rewrite list_elem_of_filter, build_mapping_None. tauto.
  - intros row (code & Hcode & Hrow)%list_elem_of_omap.
    apply build_mapping_Some in Hrow as [Hin Hkey]. split; [done|].
    by exists code.
Qed.

Lemma filter_ext_Forall {A} (P Q : A → Prop)
    `{∀ x, Decision (P x)} `{∀ x, Decision (Q x)} (l : list A) :
  Forall (λ x, P x ↔ Q x) l → filter P l = filter Q l.
Proof.
  induction 1 as [|x l HPQ _ IH]; [done|].
  destruct (decide (P x)) as [HP|HP].
  - rewrite !filter_cons_True by tauto. by rewrite IH.
  - rewrite !filter_cons_False by tauto. done.
Qed.

Lemma omap_ext_Forall {A B} (f g : A → option B) (l : list A) :
  Forall (λ x, f x = g x) l → omap f l = omap g l.
Proof.
  intros Hall. apply list_omap_ext.
  induction Hall; by constructor.
Qed.

Lemma lookups_agree_reorder (m1 m2 : gmap pystr (pystr * pystr))
    (desired_order : list pystr) :
  Forall (λ code, m1 !! normalize_code code = m2 !! normalize_code code)
    desired_order →
  reorder m1 desired_order = reorder m2 desired_order.
Proof.
  intros Hall. rewrite !reorder_spec. f_equal.
  - by apply omap_ext_Forall.
  - apply filter_ext_Forall. eapply Forall_impl; [exact Hall|].
    intros code Hcode. simpl in *. by rewrite Hcode.
Qed.

(** X17.  Reordering is stable on its own output: running the reordering
    again on the rows it emitted, with the same canonical list, emits the
    same rows and reports the same missing codes. *)
Theorem reorder_idempotent (rows : list (pystr * pystr))
    (desired_order : list pystr) :
  reorder (build_mapping (reorder (build_mapping rows) desired_order).1)
    desired_order
  = reorder (build_mapping rows) desired_order.
Proof.
  apply lookups_agree_reorder. apply Forall_forall. intros code Hcode.
  rewrite reorder_spec. simpl.
  set (m := build_mapping rows).
  set (out := omap (λ c, m !! normalize_code c) desired_order).
  assert (Hout : ∀ row, row ∈ out →
                   m !! normalize_code row.1 = Some row).
  { intros row (c & _ & Hrow)%list_elem_of_omap.
    pose proof (build_mapping_Some rows _ _ Hrow) as [_ Hkey].
    by rewrite Hkey. }
  destruct (m !! normalize_code code) as [row|] eqn:Hrow.
  - assert (Hin : row ∈ out) by (apply list_elem_of_omap; by exists code).
    pose proof (build_mapping_Some rows _ _ Hrow) as [_ Hkey].
    destruct (build_mapping out !! normalize_code code) as [row'|] eqn:Hrow'.
    + apply build_mapping_Some in Hrow' as [Hin' Hkey'].
      apply Hout in Hin'. rewrite Hkey', Hrow in Hin'. done.
    + apply build_mapping_None in Hrow'. rewrite Forall_forall in Hrow'.
      by destruct (Hrow' row Hin).
  - apply build_mapping_None. apply Forall_forall. intros row' Hin' Hkey'.
    apply Hout in Hin'. rewrite Hkey', Hrow in Hin'. done.
Qed.

Lemma first_row_with_key (rows : list (pystr * pystr)) row :
  NoDup (map (λ r, normalize_code r.1) rows) →
  row ∈ rows →
  build_mapping rows !! normalize_code row.1 = Some row.
Proof.
  rewrite build_mapping_lookup.
  induction rows as [|r rows IH]; [by intros _ ?%elem_of_nil|].
  simpl. intros [Hr Hnd]%NoDup_cons Hin.
  apply elem_of_cons in Hin as [->|Hin]; [by rewrite filter_cons_True|].
  rewrite filter_cons_False; [by apply IH|].
  intros Hkey. apply Hr. rewrite Hkey.
  change (map ?f rows) with (f <$> rows). apply list_elem_of_fmap.
  by exists row.
Qed.

(** X18.  When the rows of the table have pairwise different keys, the
    canonical codes have pairwise different keys, and the two sets of keys
    are the same, the reordering loses and repeats nothing: the emitted rows
    are a permutation of the rows of the table, their keys follow the
    canonical list, and no code is missing. *)
Theorem reorder_permutation (rows : list (pystr * pystr))
    (desired_order : list pystr) :
  NoDup (map (λ r, normalize_code r.1) rows) →
  NoDup (map normalize_code desired_order) →
  (∀ key, key ∈ map (λ r, normalize_code r.1) rows
          ↔ key ∈ map normalize_code desired_order) →
  (reorder (build_mapping rows) desired_order).1 ≡ₚ rows
  ∧ map (λ r, normalize_code r.1) (reorder (build_mapping rows) desired_order).1
    = map normalize_code desired_order
  ∧ (reorder (build_mapping rows) desired_order).2 = [].
Proof.
  intros Hrows Horder Hkeys. rewrite reorder_spec. simpl.
  set (m := build_mapping rows).
  assert (Hfound : ∀ code, code ∈ desired_order →
                     ∃ row, m !! normalize_code code = Some row
                            ∧ normalize_code row.1 = normalize_code code).
  { intros code Hcode.
    assert (Hk : normalize_code code ∈ map normalize_code desired_order).
    { change (map ?f ?l) with (f <$> l). apply list_elem_of_fmap. by exists code. }
    apply Hkeys in Hk. change (map ?f ?l) with (f <$> l) in Hk.
    apply list_elem_of_fmap in Hk as (row & Hkey & Hrow).
    exists row. split; [|done]. rewrite Hkey. by apply first_row_with_key. }
  assert (Hmapkeys :
    map (λ r, normalize_code r.1)
      (omap (λ code, m !! normalize_code code) desired_order)
    = map normalize_code desired_order).
  { clear Horder Hkeys. induction desired_order as [|code order IH]; [done|].
    destruct (Hfound code) as (row & Hrow & Hkey); [left|].
    simpl. rewrite Hrow. simpl. rewrite Hkey. f_equal. apply IH.
    intros c Hc. apply Hfound. by right. }
  split; [|split; [done|]].
  - apply NoDup_Permutation.
    + apply (NoDup_fmap_1 (λ r, normalize_code r.1)).
      change (?f <$> ?l) with (map f l). by rewrite Hmapkeys.
    + by apply (NoDup_fmap_1 (λ r, normalize_code r.1)).
    + intros row. rewrite list_elem_of_omap. split.
      * intros (code & _ & Hrow). by apply build_mapping_Some in Hrow as [? _].
      * intros Hrow.
        assert (Hk : normalize_code row.1 ∈ map normalize_code desired_order).
        { apply Hkeys. change (map ?f ?l) with (f <$> l).
          apply list_elem_of_fmap. by exists row. }
        change (map ?f ?l) with (f <$> l) in Hk.
        apply list_elem_of_fmap in Hk as (code & Hkey & Hcode).
        exists code. split; [done|]. rewrite <- Hkey.
        by apply first_row_with_key.
  - clear Hmapkeys Horder Hkeys.
    induction desired_order as [|code order IH]; [done|].
    destruct (Hfound code) as (row & Hrow & _); [left|].
    rewrite filter_cons_False by (by rewrite Hrow).
    apply IH. intros c Hc. apply Hfound. by right.
Qed.

End ReorderMore.

Lemma reorder_accounts_for_every_code_witness :
  (py "B", py "y") ∈ [(py "a", py "x"); (py "B", py "y"); (py "z", py "w")]
  ∧ ∃ code, code ∈ [py "b "; py "C"]
            ∧ normalize_code (R := ascii_runtime) code
              = normalize_code (R := ascii_runtime) (py "B").
Proof.
  apply (proj2 (proj2 (proj2 (reorder_accounts_for_every_code
           (R := ascii_runtime)
           [(py "a", py "x"); (py "B", py "y"); (py "z", py "w")]
           [py "b "; py "C"]))) (py "B", py "y")).
  apply (bool_decide_unpack (_ ∈ _)). vm_compute. exact I.
Defined.


Lemma reorder_permutation_witness :
  (reorder (R := ascii_runtime)
     (build_mapping (R := ascii_runtime) [(py "a", py "x"); (py "B", py "y")])
     [py "b "; py "A/"]).1
  ≡ₚ [(py "a", py "x"); (py "B", py "y")].
Proof.
  apply (reorder_permutation (R := ascii_runtime)
           [(py "a", py "x"); (py "B", py "y")] [py "b "; py "A/"]).
  - apply (bool_decide_unpack (NoDup _)). vm_compute. exact I.
  - apply (bool_decide_unpack (NoDup _)). vm_compute. exact I.
  - intros key.
    change (map _ [(py "a", py "x"); (py "B", py "y")]) with [py "a"; py "b"].
    change (map _ [py "b "; py "A/"]) with [py "b"; py "a"].
    rewrite !elem_of_cons, !elem_of_nil. tauto.
Defined.

(** ** Codes with the same key *)

Lemma rstrip_chars_all p (s : pystr) :
  forallb p s = true → rstrip_chars p s = [].
Proof.
  induction s as [|c s IH]; [done|]. simpl.
  intros [Hc Hs]%andb_true_iff. by rewrite IH, Hc.
Qed.

Lemma rstrip_chars_app_all p (s ws : pystr) :
  forallb p ws = true → rstrip_chars p (s ++ ws) = rstrip_chars p s.
Proof.
  induction ws as [|w ws IH] using rev_ind; intros Hws.
  - by rewrite app_nil_r.
  - rewrite forallb_app in Hws. apply andb_true_iff in Hws as [Hws Hw].
    simpl in Hw. rewrite andb_true_r in Hw.
    rewrite app_assoc, rstrip_chars_snoc, Hw. by apply IH.
Qed.

Lemma multispace_sub_from_nil_inv b (s : pystr) :
  multispace_sub_from b s = [] → forallb is_space s = true.
Proof.
  revert b. induction s as [|c s IH]; intros b; [done|]. simpl.
  destruct (is_space c); [|done]. destruct b; [apply IH|done].
Qed.

(** Trailing whitespace can be stripped before or after collapsing. *)
Lemma rstrip_space_multispace_sub_from b (s : pystr) :
  rstrip_chars is_space (multispace_sub_from b s)
  = multispace_sub_from b (rstrip_chars is_space s).
Proof.
  revert b. induction s as [|c s IH]; intros b; [done|].
  destruct (is_space c) eqn:Hc.
  - cbn [multispace_sub_from]. rewrite Hc.
    destruct (decide (rstrip_chars is_space s = [])) as [Hr|Hr].
    + rewrite (rstrip_chars_cons_nil _ c s) by done. simpl.
      assert (Hnil : rstrip_chars is_space (multispace_sub_from true s) = [])
        by by rewrite IH, Hr.
      destruct b; [done|]. by apply rstrip_chars_cons_nil.
    + rewrite (rstrip_chars_cons_ne _ c s) by done.
      cbn [multispace_sub_from]. rewrite Hc.
      destruct b; [apply IH|].
      rewrite rstrip_chars_cons_ne; [by rewrite IH|].
      rewrite IH. intros Hnil. apply multispace_sub_from_nil_inv in Hnil.
      apply rstrip_chars_all in Hnil. by rewrite rstrip_chars_idemp in Hnil.
  - rewrite (rstrip_chars_cons _ c s) by done.
    cbn [multispace_sub_from]. rewrite Hc.
    rewrite rstrip_chars_cons by done. by rewrite IH.
Qed.

Lemma multispace_sub_from_leading (ws s : pystr) :
  forallb is_space ws = true →
  multispace_sub_from true (ws ++ s) = multispace_sub_from true s.
Proof.
  induction ws as [|w ws IH]; [done|]. simpl.
  intros [Hw Hws]%andb_true_iff. rewrite Hw. by apply IH.
Qed.

Lemma multispace_sub_from_run b (ws s : pystr) :
  ws ≠ [] → forallb is_space ws = true →
  multispace_sub_from b (ws ++ s)
  = (if b then [] else [SPACE]) ++ multispace_sub_from true s.
Proof.
  destruct ws as [|w ws]; [done|]. intros _. simpl.
  intros [Hw Hws]%andb_true_iff. rewrite Hw.
  rewrite multispace_sub_from_leading by done. by destruct b.
Qed.

Lemma multispace_sub_from_app_congr b (a y y' : pystr) :
  (∀ b', multispace_sub_from b' y = multispace_sub_from b' y') →
  multispace_sub_from b (a ++ y) = multispace_sub_from b (a ++ y').
Proof.
  intros Hy. revert b. induction a as [|c a IH]; intros b; [apply Hy|].
  simpl. by rewrite !IH.
Qed.

Lemma multispace_sub_from_no_space b (y : pystr) :
  forallb (λ c, negb (is_space c)) y = true → multispace_sub_from b y = y.
Proof.
  revert b. induction y as [|c y IH]; intros b; [done|]. simpl.
  intros [Hc Hy]%andb_true_iff. apply negb_true_iff in Hc. rewrite Hc.
  by rewrite IH.
Qed.

Lemma multispace_sub_from_app_no_space b (x y : pystr) :
  forallb (λ c, negb (is_space c)) y = true →
  multispace_sub_from b (x ++ y) = multispace_sub_from b x ++ y.
Proof.
  intros Hy. revert b. induction x as [|c x IH]; intros b.
  - by apply multispace_sub_from_no_space.
  - simpl. rewrite !IH. by destruct (is_space c), b.
Qed.

Section SameKey.
Context {R : Runtime}.

(** [normalize_code] as one scan that drops the leading whitespace and
    collapses the runs, followed by the two strips on the right. *)
Lemma normalize_code_scan (code : pystr) :
  normalize_code code
  = str_lower
      (rstrip_chars (λ c, (c =? SLASH)%N)
         (rstrip_chars is_space (multispace_sub_from true code))).
Proof.
  unfold normalize_code, multispace_sub, strip.
  by rewrite <- rstrip_space_multispace_sub_from, <- multispace_sub_from_lstrip.
Qed.

(** X19.  Whitespace around a code and the length and kind of the
    whitespace runs inside it do not matter for the key: codes that differ
    only there get the same key, for every runtime. *)
Theorem normalize_code_whitespace_insensitive (ws1 ws2 a ws ws' b : pystr) :
  forallb is_space ws1 = true → forallb is_space ws2 = true →
  forallb is_space ws = true → forallb is_space ws' = true →
  ws ≠ [] → ws' ≠ [] →
  normalize_code (ws1 ++ a ++ ws2) = normalize_code a
  ∧ normalize_code (a ++ ws ++ b) = normalize_code (a ++ ws' ++ b).
Proof.
  intros H1 H2 Hws Hws' Hne Hne'. rewrite !normalize_code_scan. split.
  - rewrite multispace_sub_from_leading by done.
    rewrite (rstrip_space_multispace_sub_from true (a ++ ws2)).
    rewrite rstrip_chars_app_all by done.
    by rewrite <- rstrip_space_multispace_sub_from.
  - do 3 f_equal. apply multispace_sub_from_app_congr. intros b'.
    by rewrite !multispace_sub_from_run.
Qed.

Lemma slashes_no_space n :
  forallb (λ c, negb (is_space c)) (replicate n SLASH) = true.
Proof. by induction n. Qed.

Lemma slashes_all_slash n :
  forallb (λ c, (c =? SLASH)%N) (replicate n SLASH) = true.
Proof. by induction n. Qed.

(** X20.  Trailing separators do not matter for the key of a code that does
    not end in whitespace: with any number of "/" appended the key is the
    same; and for every code, one appended "/" or several give the same
    key. *)
Theorem normalize_code_separator_insensitive (code : pystr) (n : nat) :
  (ends_with_space code = false →
   normalize_code (code ++ replicate n SLASH) = normalize_code code)
  ∧ normalize_code (code ++ replicate (S n) SLASH)
    = normalize_code (code ++ [SLASH]).
Proof.
  assert (Hpos : ∀ k,
    rstrip_chars (λ c, (c =? SLASH)%N)
      (rstrip_chars is_space
         (multispace_sub_from true (code ++ replicate (S k) SLASH)))
    = rstrip_chars (λ c, (c =? SLASH)%N) (multispace_sub_from true code)).
  { intros k.
    rewrite multispace_sub_from_app_no_space by apply slashes_no_space.
    rewrite (rstrip_chars_fix is_space).
    - apply rstrip_chars_app_all, slashes_all_slash.
    - intros c. rewrite replicate_S_end, app_assoc, last_snoc.
      by intros [= <-]. }
  split.
  - intros Hend. rewrite !normalize_code_scan. f_equal.
    destruct n as [|n]; [by rewrite app_nil_r|]. rewrite Hpos. f_equal.
    rewrite rstrip_space_multispace_sub_from. f_equal. symmetry.
    apply rstrip_chars_fix. intros c Hc. unfold ends_with_space in Hend.
    by rewrite Hc in Hend.
  - rewrite !normalize_code_scan. f_equal.
    by rewrite (Hpos n), <- (Hpos 0).
Qed.

(** X21.  The key of a code of ASCII characters is in normal form for every
    step but the trimming on the right: it does not start with whitespace,
    its whitespace runs are single spaces, it does not end with "/", it has
    no uppercase letter, and it is not longer than the code. *)
Theorem normalize_code_key_shape (code : pystr) :
  forallb is_ascii code = true →
  let key := normalize_code code in
  lstrip_chars is_space key = key
  ∧ multispace_sub key = key
  ∧ rstrip_chars (λ c, (c =? SLASH)%N) key = key
  ∧ map ascii_lower key = key
  ∧ Forall (λ c, ¬ (65 ≤ c ≤ 90)%N) key
  ∧ length key ≤ length code.
Proof.
  intros Hcode key. subst key. rewrite (normalize_code_ascii code Hcode).
  destruct (normalize_steps_shape code) as (Hhead & Hsub & Hsl).
  set (t := rstrip_chars _ (multispace_sub (strip code))) in *.
  split; [|split; [|split; [|split; [|split]]]].
  - rewrite lstrip_chars_map by apply ascii_lower_space. f_equal.
    destruct t as [|c t']; [done|]. by rewrite lstrip_chars_id by by apply Hhead.
  - unfold multispace_sub.
    rewrite multispace_sub_from_map by (apply ascii_lower_space || done).
    by fold (multispace_sub t); rewrite Hsub.
  - rewrite rstrip_chars_map by apply ascii_lower_slash. by rewrite Hsl.
  - rewrite map_map. apply map_ext. apply ascii_lower_idemp.
  - apply Forall_forall. intros c Hc.
    change (map ?f ?l) with (f <$> l) in Hc.
    apply list_elem_of_fmap in Hc as (x & -> & _).
    destruct (ascii_lower_cases x) as [[Hx E] | [Hx E]]; rewrite E; lia.
  - rewrite length_map. subst t.
    etrans; [apply rstrip_chars_length|].
    etrans; [apply multispace_sub_from_length | apply strip_length].
Qed.

End SameKey.

Lemma normalize_code_whitespace_insensitive_witness :
  normalize_code (R := ascii_runtime) (py "  " ++ py "Dark Grey" ++ py " ")
  = normalize_code (R := ascii_runtime) (py "Dark Grey")
  ∧ normalize_code (R := ascii_runtime) (py "Dark" ++ py "   " ++ py "Grey")
    = normalize_code (R := ascii_runtime) (py "Dark" ++ py " " ++ py "Grey").
Proof.
  split.
  - apply (normalize_code_whitespace_insensitive (R := ascii_runtime)
             (py "  ") (py " ") (py "Dark Grey") (py " ") (py " ") []);
      reflexivity || discriminate.
  - apply (normalize_code_whitespace_insensitive (R := ascii_runtime)
             [] [] (py "Dark") (py "   ") (py " ") (py "Grey"));
      reflexivity || discriminate.
Defined.

Lemma normalize_code_separator_insensitive_witness :
  normalize_code (R := ascii_runtime) (py "HG-0760GP" ++ replicate 2 SLASH)
  = normalize_code (R := ascii_runtime) (py "HG-0760GP").
Proof.
  exact (proj1 (normalize_code_separator_insensitive (R := ascii_runtime)
                  (py "HG-0760GP") 2) eq_refl).
Defined.

Lemma normalize_code_key_shape_witness :
  multispace_sub (normalize_code (R := ascii_runtime) (py " Dark  Grey/ "))
  = normalize_code (R := ascii_runtime) (py " Dark  Grey/ ").
Proof.
  exact (proj1 (proj2 (normalize_code_key_shape (R := ascii_runtime)
                         (py " Dark  Grey/ ") eq_refl))).
Defined.

(** ** The reorder stage from the file on *)

(** With a write that does not fail, [rearrange_path] is [rearrange_file]
    on what the loader returns or raises. *)
Lemma rearrange_path_rearrange_file {R : Runtime}
    (read_csv : pystr → parsed DataFrame) (desired_order : list pystr) :
  rearrange_path read_csv (λ _, None) desired_order
  = rearrange_file (read_csv_smart read_csv).1 desired_order.
Proof.
  unfold rearrange_path, rearrange_file.
  destruct (read_csv_smart read_csv).1 as [df|e]; [|done].
  destruct (ensure_columns df) as [frame|e]; [|done].
  by destruct (reorder _ desired_order).
Qed.

(** X22.  On a file whose table has distinct labels, [rearrange_file],
    loader included, raises in three cases only: no encoding parses the
    file ([RuntimeError] with the text of the cp949 error), the table has
    fewer than two columns ([ValueError]), or the reordered table cannot be
    written (the exception of [to_csv]); in each it has printed its load
    message and nothing else.  When it returns, it has written one table,
    the reordering of the rows of the selected columns, with at most one row
    per canonical code. *)
Theorem rearrange_path_outcomes {R : Runtime}
    (read_csv : pystr → parsed DataFrame)
    (to_csv : list (pystr * pystr) → option exn)
    (desired_order : list pystr) :
  (∀ df, (read_csv_smart read_csv).1 = Ok df → NoDup (columns df)) →
  let run := rearrange_path read_csv to_csv desired_order in
  (∀ e, run.1 = Raise e →
     run.2 = [PrintLoad]
     ∧ ((∃ text, read_csv (py "cp949") = ParseError text
                 ∧ e = RuntimeError text
                 ∧ (read_csv_smart read_csv).1 = Raise e)
        ∨ (∃ df, (read_csv_smart read_csv).1 = Ok df
                 ∧ length df < 2 ∧ e = ValueError)
        ∨ (∃ df frame,
             (read_csv_smart read_csv).1 = Ok df
             ∧ ensure_columns df = Ok frame
             ∧ to_csv (reorder (build_mapping (iterrows frame))
                         desired_order).1 = Some e)))
  ∧ (run.1 = Ok () →
     ∃ df frame rows tail,
       (read_csv_smart read_csv).1 = Ok df
       ∧ ensure_columns df = Ok frame
       ∧ rows = (reorder (build_mapping (iterrows frame)) desired_order).1
       ∧ to_csv rows = None
       ∧ run.2 = [PrintLoad; ToCsv rows; PrintSaved (length rows)] ++ tail
       ∧ length rows ≤ length desired_order
       ∧ Forall (λ ev, ∀ rows', ev ≠ ToCsv rows') tail).
Proof.
  intros _ run. subst run. unfold rearrange_path.
  destruct (read_csv_smart read_csv).1 as [df|e0] eqn:Hread.
  - assert (Hcases : length df < 2 ∨ 2 ≤ length df) by lia.
    destruct Hcases as [Hlen|Hlen].
    + rewrite (ensure_columns_one_column df Hlen).
      split; [|discriminate]. intros e [= <-]. split; [done|].
      right; left. by exists df.
    + destruct (ensure_columns_two_columns df Hlen) as [frame Hframe].
      rewrite Hframe.
      pose proof (omap_filter_length
                    (λ code, build_mapping (iterrows frame) !! normalize_code code)
                    desired_order) as Hcount.
      rewrite reorder_spec.
      set (out := omap _ desired_order) in *.
      set (missing := filter _ desired_order) in *.
      cbv zeta. destruct (to_csv out) as [e1|] eqn:Hcsv; cbn [fst snd].
      * split; [|discriminate]. intros e [= <-]. split; [done|].
        right; right. exists df, frame. split; [done|]. split; [done|].
        by rewrite reorder_spec.
      * split; [discriminate|]. intros _.
        exists df, frame, out, (match missing with
                                | [] => []
                                | _ => [PrintMissing (length missing) missing]
                                end).
        split; [done|]. split; [done|]. split; [by rewrite reorder_spec|].
        split; [done|]. split; [done|]. split; [lia|].
        destruct missing; repeat constructor; discriminate.
  - simpl. split; [|discriminate]. intros e [= <-]. split; [done|]. left.
    apply read_csv_from_Raise in Hread as (_ & _ & text & Htext & ->).
    by exists text.
Qed.

Lemma rearrange_path_outcomes_witness :
  let read_csv : pystr → parsed DataFrame :=
    λ enc, if decide (enc = py "utf-8-sig")
           then ParseError (py "invalid start byte")
           else Parsed [(py "code", [py "A-1"; py "B-2"]);
                        (py "text", [py "soft"; py "calm"])] in
  ∃ rows tail,
    (rearrange_path (R := ascii_runtime) read_csv (λ _, None)
       [py "b-2"; py "a-1"; py "c-3"]).2
    = [PrintLoad; ToCsv rows; PrintSaved (length rows)] ++ tail
    ∧ length rows ≤ 3.
Proof.
  intros read_csv.
  destruct (rearrange_path_outcomes (R := ascii_runtime) read_csv (λ _, None)
              [py "b-2"; py "a-1"; py "c-3"]) as [_ Hok].
  - intros df Hdf. vm_compute in Hdf. injection Hdf as <-.
    apply (bool_decide_unpack (NoDup _)). vm_compute. exact I.
  - destruct Hok as (df & frame & rows & tail & _ & _ & _ & _ & Hlog & Hlen & _);
      [reflexivity|].
    by exists rows, tail.
Defined.
